(** * Huffman coding (main.cpp): a shallow embedding and its properties

    The development follows main.cpp function by function:
    [buildFrequencyTable], [buildHuffmanTree], [generateHuffmanCodes],
    [encode], [decode] and the part of [main] that runs them and reports
    the sizes ([run]); [main_loop] is the loop of [main] around it, over
    a model of [std::cin].

    Modelling choices.
    - [Node*] is the inductive [NodePtr]: either [nullptr] or a node with
      its four fields.
    - [std::string] is [string]; a bit string is a string of the
      characters '0' and '1', as in the program.
    - [std::unordered_map] is a [gmap].  The order in which a range-for
      visits its entries and the order in which [std::priority_queue]
      returns nodes of equal frequency are left open by the C++ standard;
      both are collected in the class [CxxLib], and every general theorem
      is proved for all its instances.  [ref_lib] is one instance, used to
      evaluate the program on concrete inputs.
    - An [int] is a [Z] between [INT_MIN] and [INT_MAX], and the two
      [int] operations of the program, the increment of a count and the
      sum of two node frequencies, wrap around ([int_add]).  C++ leaves
      the overflow of a signed integer undefined; the wrap-around is what
      the compiled program does.  On inputs of at most [INT_MAX]
      characters nothing overflows: every count and every node frequency
      lies between 1 and the length of the input ([node_freq_bounded]).
    - Behaviour that C++ leaves undefined (dereferencing a null pointer,
      [top()] of an empty queue) is the outcome [Undefined]; the exception
      of [unordered_map::at] is [OutOfRange]. *)

From Stdlib Require Import ZArith Ascii.
From stdpp Require Import gmap strings list fin_maps.

Open Scope Z_scope.

(** ** Outcomes of a computation *)

Inductive result (A : Type) : Type :=
  | Ok (a : A)
  | Undefined      (* undefined behaviour *)
  | OutOfRange     (* std::out_of_range thrown by at() *)
  | OutOfFuel.     (* the loop bound of the model was reached *)
Arguments Ok {A} a.
Arguments Undefined {A}.
Arguments OutOfRange {A}.
Arguments OutOfFuel {A}.

#[export] Instance result_bind : MBind result := λ A B k r,
  match r with
  | Ok a => k a
  | Undefined => Undefined
  | OutOfRange => OutOfRange
  | OutOfFuel => OutOfFuel
  end.

(** The computation ends by throwing an exception.  [std::out_of_range]
    is the only exception the program can throw: it contains no [throw]
    and no other checked access. *)
Definition raises {A} (r : result A) : Prop := r = OutOfRange.

(** ** int *)

Definition INT_MAX : Z := 2147483647.
Definition INT_MIN : Z := -2147483648.

(** The [int] that holds the integer [z]: [z] itself when it lies
    between [INT_MIN] and [INT_MAX], and otherwise the integer of that
    range that differs from [z] by a multiple of 2^32. *)
Definition int_wrap (z : Z) : Z :=
  (z + 2147483648) mod 4294967296 - 2147483648.

(** [a + b] on two [int]s. *)
Definition int_add (a b : Z) : Z := int_wrap (a + b).

(** ** struct Node *)

Inductive NodePtr : Type :=
  | nullptr
  | node (ch : ascii) (freq : Z) (left right : NodePtr).

#[export] Instance NodePtr_eq_dec : EqDecision NodePtr.
Proof. solve_decision. Defined.

(** [Node(character, frequency)]: both children are null. *)
Definition new_Node (character : ascii) (frequency : Z) : NodePtr :=
  node character frequency nullptr nullptr.

Definition is_null (p : NodePtr) : bool :=
  match p with nullptr => true | node _ _ _ _ => false end.

(** [p->freq]; the program reads it only through pointers obtained from
    [new], never through a null pointer. *)
Definition freq_of (p : NodePtr) : Z :=
  match p with nullptr => 0 | node _ f _ _ => f end.

(** ** struct Compare *)

Definition Compare (a b : NodePtr) : bool := freq_of a >? freq_of b.

(** ** buildFrequencyTable *)

(** [frequency[key]++]: [operator[]] inserts 0 for a missing key, and
    the count is an [int]. *)
Definition increment (key : ascii) (frequency : gmap ascii Z) : gmap ascii Z :=
  <[key := int_add (default 0 (frequency !! key)) 1]> frequency.

Fixpoint buildFrequencyTable_loop (input : string) (frequency : gmap ascii Z)
  : gmap ascii Z :=
  match input with
  | EmptyString => frequency
  | String ch rest =>
      if Ascii.eqb ch " "
      then buildFrequencyTable_loop rest (increment "-" frequency)
      else buildFrequencyTable_loop rest (increment ch frequency)
  end.

Definition buildFrequencyTable (input : string) : gmap ascii Z :=
  buildFrequencyTable_loop input ∅.

(** ** The library behaviour the program relies on *)

(** [pq_elems] lists the nodes a queue holds, in no particular order; it
    serves to state what the operations do.  [pq_top] is [None] on an
    empty queue, where [top()] is undefined; on any other queue it is a
    node [x] such that [Compare x y] is false for every node [y] of the
    queue, that is a node of least frequency.  [pq_pop] removes the node
    that [pq_top] returns. *)
Class CxxLib : Type := {
  (** the order in which [for (const auto& pair : frequency)] visits the map *)
  umap_iter : gmap ascii Z → list (ascii * Z);
  umap_iter_perm : ∀ m, umap_iter m ≡ₚ map_to_list m;
  (** [priority_queue<Node*, vector<Node*>, Compare>] *)
  pq : Type;
  pq_elems : pq → list NodePtr;
  pq_empty : pq;
  pq_push : NodePtr → pq → pq;
  pq_size : pq → nat;
  pq_top : pq → option NodePtr;
  pq_pop : pq → pq;
  pq_elems_empty : pq_elems pq_empty = [];
  pq_elems_push : ∀ x q, pq_elems (pq_push x q) ≡ₚ x :: pq_elems q;
  pq_size_elems : ∀ q, pq_size q = length (pq_elems q);
  pq_top_None : ∀ q, pq_top q = None ↔ pq_elems q = [];
  pq_top_first : ∀ q x, pq_top q = Some x →
    Forall (λ y, Compare x y = false) (pq_elems q);
  pq_pop_top : ∀ q x, pq_top q = Some x →
    pq_elems q ≡ₚ x :: pq_elems (pq_pop q)
}.

(** ** buildHuffmanTree *)

Section Program.
Context {lib : CxxLib}.

(** The loop [while (minHeap.size() > 1)], run for at most [fuel] rounds.
    [buildHuffmanTree] gives it as many rounds as the queue has nodes,
    which is more than it takes ([buildHuffmanTree_fuel]). *)
Fixpoint merge_loop (fuel : nat) (minHeap : pq) : result pq :=
  if (1 <? pq_size minHeap)%nat then
    match fuel with
    | O => OutOfFuel
    | S fuel' =>
        match pq_top minHeap with
        | None => Undefined
        | Some l =>
            let minHeap := pq_pop minHeap in
            match pq_top minHeap with
            | None => Undefined
            | Some r =>
                let minHeap := pq_pop minHeap in
                let merged :=
                  node Ascii.zero (int_add (freq_of l) (freq_of r)) l r in
                merge_loop fuel' (pq_push merged minHeap)
            end
        end
    end
  else Ok minHeap.

Definition push_all (entries : list (ascii * Z)) (minHeap : pq) : pq :=
  foldl (λ h pair, pq_push (new_Node pair.1 pair.2) h) minHeap entries.

Definition buildHuffmanTree (frequency : gmap ascii Z) : result NodePtr :=
  let minHeap := push_all (umap_iter frequency) pq_empty in
  minHeap ← merge_loop (pq_size minHeap) minHeap;
  match pq_top minHeap with
  | None => Undefined
  | Some root => Ok root
  end.

(** ** generateHuffmanCodes *)

Fixpoint generateHuffmanCodes (root : NodePtr) (code : string)
    (huffmanCodes : gmap ascii string) : gmap ascii string :=
  match root with
  | nullptr => huffmanCodes
  | node ch _ l r =>
      let huffmanCodes :=
        if is_null l && is_null r
        then <[ch := code]> huffmanCodes else huffmanCodes in
      let huffmanCodes := generateHuffmanCodes l (code +:+ "0") huffmanCodes in
      generateHuffmanCodes r (code +:+ "1") huffmanCodes
  end.

(** ** encode *)

(** [huffmanCodes.at(key)] *)
Definition at_ (huffmanCodes : gmap ascii string) (key : ascii) : result string :=
  match huffmanCodes !! key with
  | Some code => Ok code
  | None => OutOfRange
  end.

Fixpoint encode_loop (input : string) (huffmanCodes : gmap ascii string)
    (encodedString : string) : result string :=
  match input with
  | EmptyString => Ok encodedString
  | String ch rest =>
      if Ascii.eqb ch " " then
        code ← at_ huffmanCodes "-";
        encode_loop rest huffmanCodes (encodedString +:+ code)
      else
        code ← at_ huffmanCodes ch;
        encode_loop rest huffmanCodes (encodedString +:+ code)
  end.

Definition encode (input : string) (huffmanCodes : gmap ascii string)
  : result string :=
  encode_loop input huffmanCodes "".

(** ** decode *)

Fixpoint decode_loop (encodedString : string) (root current : NodePtr)
    (decodedString : string) : result string :=
  match encodedString with
  | EmptyString => Ok decodedString
  | String bit rest =>
      match current with
      | nullptr => Undefined
      | node _ _ l r =>
          let current := if Ascii.eqb bit "0" then l else r in
          match current with
          | nullptr => Undefined
          | node ch _ l r =>
              if is_null l && is_null r then
                decode_loop rest root root
                  (decodedString +:+
                     String (if Ascii.eqb ch "-" then " "%char else ch) "")
              else decode_loop rest root current decodedString
          end
      end
  end.

Definition decode (encodedString : string) (root : NodePtr) : result string :=
  decode_loop encodedString root root "".

(** ** main: one round of the loop, without the console *)

(** Steps 2 to 6 of [main]: the string that is compared with the input. *)
Definition round_trip (input : string) : result string :=
  let frequency := buildFrequencyTable input in
  root ← buildHuffmanTree frequency;
  let huffmanCodes := generateHuffmanCodes root "" ∅ in
  encodedString ← encode input huffmanCodes;
  decode encodedString root.

(** [(double)originalSize / compressedSize]: the quotient of two
    non-negative integers as IEEE 754 defines it.  The rounding of a
    finite quotient is not modelled; the two special results are. *)
Inductive Ratio : Type :=
  | Quotient (numerator denominator : Z)
  | Infinity
  | NaN.

Definition divide (originalSize compressedSize : Z) : Ratio :=
  if compressedSize =? 0
  then (if originalSize =? 0 then NaN else Infinity)
  else Quotient originalSize compressedSize.

Definition size_t_max : Z := 2 ^ 64 - 1.

Record Report : Type := {
  frequency : gmap ascii Z;
  root : NodePtr;
  huffmanCodes : gmap ascii string;
  encodedString : string;
  decodedString : string;
  verified : bool;
  originalSize : Z;
  compressedSize : Z;
  compressionRatio : Ratio
}.

(** [s.size()] *)
Definition string_size (s : string) : Z := Z.of_nat (String.length s).

Definition run (input : string) : result Report :=
  let frequency := buildFrequencyTable input in
  root ← buildHuffmanTree frequency;
  let huffmanCodes := generateHuffmanCodes root "" ∅ in
  encodedString ← encode input huffmanCodes;
  decodedString ← decode encodedString root;
  let originalSize := (string_size input * 8) mod (size_t_max + 1) in
  let compressedSize := string_size encodedString in
  Ok {| frequency := frequency;
        root := root;
        huffmanCodes := huffmanCodes;
        encodedString := encodedString;
        decodedString := decodedString;
        verified := bool_decide (decodedString = input);
        originalSize := originalSize;
        compressedSize := compressedSize;
        compressionRatio := divide originalSize compressedSize |}.

End Program.

(** ** main: the whole session

    [std::cin] is the string of the characters that the user will ever
    type, followed by the end of the input, together with the two state
    bits that the calls of the program can set.  The console output is
    left out: the session yields the reports of its rounds, in order. *)

Record istream : Type := {
  unread : string;
  eofbit : bool;
  failbit : bool
}.

(** [cin.good()] *)
Definition good (cin : istream) : bool :=
  negb (eofbit cin) && negb (failbit cin).

(** The characters before the first newline, and the characters after it
    when there is one. *)
Fixpoint split_line (s : string) : string * option string :=
  match s with
  | EmptyString => (EmptyString, None)
  | String c rest =>
      if Ascii.eqb c "010" then (EmptyString, Some rest)
      else
        let (line, after) := split_line rest in (String c line, after)
  end.

(** [getline(cin, str)].  On a stream that is not good it sets [failbit]
    and leaves [str] as it is.  Otherwise it erases [str] and reads up to
    the newline, which it takes out of the stream and drops; when the
    input ends first it sets [eofbit], and also [failbit] if it has read
    no character at all. *)
Definition getline (cin : istream) (str : string) : istream * string :=
  if good cin then
    match split_line (unread cin) with
    | (line, Some rest) =>
        ({| unread := rest; eofbit := false; failbit := false |}, line)
    | (line, None) =>
        ({| unread := ""; eofbit := true;
            failbit := if String.eqb line "" then true else false |}, line)
    end
  else ({| unread := unread cin; eofbit := eofbit cin; failbit := true |}, str).

(** [cin.ignore()]: one character is taken out of the stream and
    dropped.  On a stream that is not good it sets [failbit]; at the end
    of the input it sets [eofbit]. *)
Definition ignore (cin : istream) : istream :=
  if good cin then
    match unread cin with
    | EmptyString => {| unread := ""; eofbit := true; failbit := false |}
    | String _ rest => {| unread := rest; eofbit := false; failbit := false |}
    end
  else {| unread := unread cin; eofbit := eofbit cin; failbit := true |}.

Section Session.
Context {lib : CxxLib}.

(** The [do ... while] loop of [main], for at most [fuel] rounds.
    [input] and [testAnother] are declared before the loop and keep
    their value from one round to the next. *)
Fixpoint main_loop (fuel : nat) (cin : istream) (input testAnother : string)
  : result (list Report) :=
  match fuel with
  | O => OutOfFuel
  | S fuel' =>
      let (cin, input) := getline cin input in
      report ← run input;
      let (cin, testAnother) := getline cin testAnother in
      let cin := ignore cin in
      if String.eqb testAnother "y" || String.eqb testAnother "Y" then
        reports ← main_loop fuel' cin input testAnother;
        Ok (report :: reports)
      else Ok [report]
  end.

Definition main (fuel : nat) (stdin : string) : result (list Report) :=
  main_loop fuel {| unread := stdin; eofbit := false; failbit := false |} "" "".

End Session.

(** ** A reference instance of the library

    The queue is a list; [top] is the first node that no other node
    beats, [pop] removes it.  The map is visited in the order of
    [map_to_list]. *)

Module RefLib.

Fixpoint top_from (best : NodePtr) (q : list NodePtr) : NodePtr :=
  match q with
  | [] => best
  | y :: q' => top_from (if Compare best y then y else best) q'
  end.

Fixpoint pop_from (best : NodePtr) (q : list NodePtr) : list NodePtr :=
  match q with
  | [] => []
  | y :: q' =>
      if Compare best y then best :: pop_from y q' else y :: pop_from best q'
  end.

Definition top (q : list NodePtr) : option NodePtr :=
  match q with [] => None | x :: q' => Some (top_from x q') end.

Definition pop (q : list NodePtr) : list NodePtr :=
  match q with [] => [] | x :: q' => pop_from x q' end.

Definition push (x : NodePtr) (q : list NodePtr) : list NodePtr := q ++ [x].

End RefLib.

(** * Notions used to state the properties *)

(** ** Characters and counts *)

(** The characters of a string, for membership. *)
Abbreviation chars := String.list_ascii_of_string.

(** The key under which a character is counted and encoded. *)
Definition sentinel (ch : ascii) : ascii :=
  if Ascii.eqb ch " " then "-"%char else ch.

(** The character the decoder emits at a leaf. *)
Definition emitted (ch : ascii) : ascii :=
  if Ascii.eqb ch "-" then " "%char else ch.

Fixpoint string_map (f : ascii → ascii) (s : string) : string :=
  match s with
  | EmptyString => EmptyString
  | String a s' => String (f a) (string_map f s')
  end.


(** Number of characters of [input] counted under [key]. *)
Fixpoint occurrences (key : ascii) (input : string) : Z :=
  match input with
  | EmptyString => 0
  | String ch rest =>
      (if decide (sentinel ch = key) then 1 else 0) + occurrences key rest
  end.

(** No symbol of [input] occurs more than [INT_MAX] times: no count of
    the frequency table overflows. *)
Definition counts_fit (input : string) : Prop :=
  Forall (λ ch, occurrences (sentinel ch) input ≤ INT_MAX) (chars input).

Definition sumZ (l : list Z) : Z := foldr Z.add 0 l.

(** Sum of all counts of a map. *)
Definition total (m : gmap ascii Z) : Z := sumZ (map_to_list m).*2.

(** ** Leaves *)

(** A leaf is a node without children, the test made by
    [generateHuffmanCodes] and [decode]. *)
Definition is_leaf (p : NodePtr) : bool :=
  match p with
  | nullptr => false
  | node _ _ l r => is_null l && is_null r
  end.

(** The leaves of a tree from left to right, each with the path from the
    root that reaches it. *)
Fixpoint leaf_codes (t : NodePtr) : list (ascii * string) :=
  match t with
  | nullptr => []
  | node ch _ l r =>
      (if is_null l && is_null r then [(ch, "")] else []) ++
      (prod_map id (String "0") <$> leaf_codes l) ++
      (prod_map id (String "1") <$> leaf_codes r)
  end.

(** Writing a list of codes into the map, in order, below [code]. *)
Definition insert_codes (code : string) (l : list (ascii * string))
    (acc : gmap ascii string) : gmap ascii string :=
  foldl (λ acc p, <[p.1 := code +:+ p.2]> acc) acc l.

(** ** The greedy merge, abstractly *)

(** The node that one round of the loop creates. *)
Definition merge (l r : NodePtr) : NodePtr :=
  node Ascii.zero (int_add (freq_of l) (freq_of r)) l r.

(** [builds F t]: starting from the forest [F], repeatedly replacing two
    trees of least frequency by their [merge] can end with the single
    tree [t].  Which of several trees of equal frequency is taken is left
    open, as it is by [std::priority_queue]. *)
Inductive builds : list NodePtr → NodePtr → Prop :=
  | builds_done t : builds [t] t
  | builds_step F a b F' F'' t :
      F ≡ₚ a :: b :: F' →
      Forall (λ y, freq_of a ≤ freq_of y) (b :: F') →
      Forall (λ y, freq_of b ≤ freq_of y) F' →
      F'' ≡ₚ merge a b :: F' →
      builds F'' t →
      builds F t.

Definition initial_forest (frequency : gmap ascii Z) : list NodePtr :=
  (λ pair, new_Node pair.1 pair.2) <$> map_to_list frequency.

(** ** Shape, frequencies and depth *)

(** A strict binary tree: a node has no child or two. *)
Inductive strict : NodePtr → Prop :=
  | strict_leaf ch f : strict (new_Node ch f)
  | strict_node ch f l r : strict l → strict r → strict (node ch f l r).

(** A strict tree whose leaves have positive frequencies and whose inner
    nodes hold the sum of the frequencies of their children. *)
Inductive weighted : NodePtr → Prop :=
  | weighted_leaf ch f : 0 < f → weighted (new_Node ch f)
  | weighted_node ch f l r :
      weighted l → weighted r → f = freq_of l + freq_of r →
      weighted (node ch f l r).

(** The leaves of a tree from left to right, each with its frequency. *)
Fixpoint leaves (t : NodePtr) : list (ascii * Z) :=
  match t with
  | nullptr => []
  | node ch f l r =>
      (if is_null l && is_null r then [(ch, f)] else []) ++ leaves l ++ leaves r
  end.

(** [occurs t x d]: the node [x] is found in [t] at depth [d]. *)
Inductive occurs : NodePtr → NodePtr → nat → Prop :=
  | occurs_root t : occurs t t 0
  | occurs_left ch f l r x d : occurs l x d → occurs (node ch f l r) x (S d)
  | occurs_right ch f l r x d : occurs r x d → occurs (node ch f l r) x (S d).


(** ** Codes *)

(** The code that [encode] looks up for a character. *)
Definition code_of (huffmanCodes : gmap ascii string) (ch : ascii) : string :=
  default "" (huffmanCodes !! sentinel ch).

(** The concatenation of the codes of the characters of [input]. *)
Fixpoint encoding (huffmanCodes : gmap ascii string) (input : string) : string :=
  match input with
  | EmptyString => EmptyString
  | String ch rest => code_of huffmanCodes ch +:+ encoding huffmanCodes rest
  end.

(** What is known of the tree built from a map. *)
Record built (frequency : gmap ascii Z) (t : NodePtr) : Prop := {
  built_builds : builds (initial_forest frequency) t;
  built_strict : strict t;
  built_leaves : leaves t ≡ₚ map_to_list frequency;
  built_NoDup : NoDup (leaf_codes t).*1;
  built_inner : (2 ≤ size frequency)%nat → is_leaf t = false
}.

(** The characters of [text] all have a code. *)
Definition covered (huffmanCodes : gmap ascii string) (text : string) : Prop :=
  ∀ ch, ch ∈ chars text → is_Some (huffmanCodes !! sentinel ch).

(** ** Bits, sums and positions *)

(** A character of a bit string. *)
Definition is_bit (c : ascii) : Prop := c = "0"%char ∨ c = "1"%char.


(** [below t x p]: the leaves of [x] are leaves of [t], their codes
    prefixed by [p]. *)
Definition below (t x : NodePtr) (p : string) : Prop :=
  ∀ key code, (key, code) ∈ leaf_codes x → (key, p +:+ code) ∈ leaf_codes t.

(** ** Sessions *)

Definition newline : ascii := "010"%char.

(** A string typed on one line. *)
Definition one_line (s : string) : Prop := newline ∉ chars s.

(** The answers that make the loop go on. *)
Definition yes (answer : string) : Prop := answer = "y" ∨ answer = "Y".

(** What the user types in a session: a line and an answer, then for
    each further round a first character, a line and an answer, each
    line and each answer closed by a newline; [rest] is typed after the
    last answer. *)
Fixpoint session_text (line answer : string)
    (more : list (ascii * string * string)) (rest : string) : string :=
  line +:+ String newline (answer +:+ String newline
    match more with
    | [] => rest
    | (first, line', answer') :: more' =>
        String first (session_text line' answer' more' rest)
    end).

(** The lines of a session, in order. *)
Definition session_lines (line : string) (more : list (ascii * string * string))
  : list string :=
  line :: ((λ round, round.1.2) <$> more).

(** Every answer but the last is a yes, the last is not. *)
Fixpoint ends_with_no (answer : string) (more : list (ascii * string * string))
  : Prop :=
  match more with
  | [] => ¬ yes answer
  | (_, _, answer') :: more' => yes answer ∧ ends_with_no answer' more'
  end.


(** The lines and the answers are typed on one line each. *)
Definition well_typed (line answer : string)
    (more : list (ascii * string * string)) : Prop :=
  one_line line ∧ one_line answer ∧
  Forall (λ round, one_line round.1.2 ∧ one_line round.2) more.

Section RunAll.
Context {lib : CxxLib}.

(** The reports of the runs on the given strings, one after the other. *)
Fixpoint run_all (inputs : list string) : result (list Report) :=
  match inputs with
  | [] => Ok []
  | input :: inputs' =>
      report ← run input;
      reports ← run_all inputs';
      Ok (report :: reports)
  end.

End RunAll.

(** ** Values of the program on some inputs *)

(** The tree of "aaaabbc" (a: 4, b: 2, c: 1); see
    [buildHuffmanTree_aaaabbc]. *)
Definition tree_aaaabbc : NodePtr :=
  node Ascii.zero 7
    (node Ascii.zero 3 (new_Node "c" 1) (new_Node "b" 2))
    (new_Node "a" 4).


(** A frequency map of six positive [int] counts that sum to 2^32 + 11:
    2^30 and 2^30 + 1, then 2^29 + 1 to 2^29 + 4. *)
Definition heavy_map : gmap ascii Z :=
  {[ "A"%char := 1073741824; "B"%char := 1073741825;
     "p"%char := 536870913; "q"%char := 536870914;
     "r"%char := 536870915; "s"%char := 536870916 ]}.


(** The tree of [heavy_map]; see [buildHuffmanTree_heavy]. *)
Definition heavy_tree : NodePtr :=
  node Ascii.zero 11
    (node Ascii.zero (-1073741820)
       (node Ascii.zero (-2147483647)
          (new_Node "A" 1073741824) (new_Node "B" 1073741825))
       (node Ascii.zero 1073741827
          (new_Node "p" 536870913) (new_Node "q" 536870914)))
    (node Ascii.zero 1073741831
       (new_Node "r" 536870915) (new_Node "s" 536870916)).

(** The report of the run on "aaaa". *)
Definition report_aaaa : Report :=
  {| frequency := {["a"%char := 4]};
     root := new_Node "a" 4;
     huffmanCodes := {["a"%char := ""]};
     encodedString := "";
     decodedString := "";
     verified := false;
     originalSize := 32;
     compressedSize := 0;
     compressionRatio := Infinity |}.

(** The report of the run on "abb" (a: 1, b: 2). *)
Definition report_abb : Report :=
  {| frequency := {["a"%char := 1; "b"%char := 2]};
     root := node Ascii.zero 3 (new_Node "a" 1) (new_Node "b" 2);
     huffmanCodes := {["a"%char := "0"; "b"%char := "1"]};
     encodedString := "011";
     decodedString := "abb";
     verified := true;
     originalSize := 24;
     compressedSize := 3;
     compressionRatio := Quotient 24 3 |}.

(** * Properties *)

(** ** The reference library satisfies the laws *)

Lemma ref_pop_from_perm best q :
  best :: q ≡ₚ RefLib.top_from best q :: RefLib.pop_from best q.
Proof.
  revert best. induction q as [|y q IH]; intros best; simpl; [done|].
  destruct (Compare best y).
  - etrans; [apply perm_skip, (IH y) | apply perm_swap].
  - etrans; [apply perm_swap|].
    etrans; [apply perm_skip, (IH best) | apply perm_swap].
Qed.

Lemma ref_top_from_le best q :
  freq_of (RefLib.top_from best q) ≤ freq_of best ∧
  Forall (λ y, freq_of (RefLib.top_from best q) ≤ freq_of y) q.
Proof.
  revert best. induction q as [|y q IH]; intros best; simpl.
  - split; [lia | constructor].
  - unfold Compare. rewrite Z.gtb_ltb.
    destruct (Z.ltb_spec (freq_of y) (freq_of best)).
    + destruct (IH y) as [H1 H2]. split; [lia|]. constructor; [lia|done].
    + destruct (IH best) as [H1 H2]. split; [lia|]. constructor; [lia|done].
Qed.

Lemma ref_top_first q x :
  RefLib.top q = Some x → Forall (λ y, Compare x y = false) q.
Proof.
  destruct q as [|b q]; simpl; intros Hx; simplify_eq.
  destruct (ref_top_from_le b q) as [H1 H2].
  constructor.
  - unfold Compare. rewrite Z.gtb_ltb. apply Z.ltb_ge. lia.
  - eapply Forall_impl; [exact H2|]. intros y Hy. simpl in Hy.
    unfold Compare. rewrite Z.gtb_ltb. apply Z.ltb_ge. lia.
Qed.

Lemma ref_elems_push x q : RefLib.push x q ≡ₚ x :: q.
Proof. unfold RefLib.push. by rewrite Permutation_app_comm. Qed.

Lemma ref_top_None q : RefLib.top q = None ↔ q = [].
Proof. by destruct q. Qed.

Lemma ref_pop_top q x : RefLib.top q = Some x → q ≡ₚ x :: RefLib.pop q.
Proof.
  destruct q as [|b q]; simpl; intros Hx; simplify_eq. apply ref_pop_from_perm.
Qed.

#[export] Instance ref_lib : CxxLib := {|
  umap_iter := map_to_list;
  umap_iter_perm := λ m, reflexivity (map_to_list m);
  pq := list NodePtr;
  pq_elems := id;
  pq_empty := [];
  pq_push := RefLib.push;
  pq_size := length;
  pq_top := RefLib.top;
  pq_pop := RefLib.pop;
  pq_elems_empty := eq_refl;
  pq_elems_push := ref_elems_push;
  pq_size_elems := λ q, eq_refl;
  pq_top_None := ref_top_None;
  pq_top_first := ref_top_first;
  pq_pop_top := ref_pop_top
|}.

(** ** Strings *)

Lemma string_app_cons a s t : String a s +:+ t = String a (s +:+ t).
Proof. done. Qed.

Lemma string_app_nil_r s : s +:+ "" = s.
Proof. induction s as [|a s IH]; [done|]. by rewrite string_app_cons, IH. Qed.

Lemma string_app_assoc s t u : (s +:+ t) +:+ u = s +:+ (t +:+ u).
Proof. induction s as [|a s IH]; [done|]. by rewrite !string_app_cons, IH. Qed.

(** [String.prefix s u] tells whether [u] starts with [s]. *)
Lemma prefix_spec s u : String.prefix s u = true ↔ ∃ t, u = s +:+ t.
Proof.
  revert u. induction s as [|a s IH]; intros u.
  - split; [by exists u | by destruct u].
  - destruct u as [|b u]; simpl.
    + split; [done | by intros [t [=]]].
    + destruct (ascii_dec a b) as [->|Hne].
      * rewrite IH. split; intros [t Ht]; exists t.
        -- by rewrite Ht.
        -- by injection Ht.
      * split; [done|]. intros [t [= ? _]]. done.
Qed.

(** ** int arithmetic *)

Lemma int_wrap_small z : INT_MIN ≤ z ≤ INT_MAX → int_wrap z = z.
Proof.
  unfold INT_MIN, INT_MAX, int_wrap. intros Hz. rewrite Z.mod_small; lia.
Qed.

Lemma int_wrap_range z : INT_MIN ≤ int_wrap z ≤ INT_MAX.
Proof.
  unfold INT_MIN, INT_MAX, int_wrap.
  pose proof (Z.mod_pos_bound (z + 2147483648) 4294967296). lia.
Qed.

Lemma int_wrap_add z n : int_wrap (int_wrap z + n) = int_wrap (z + n).
Proof.
  unfold int_wrap.
  replace ((z + 2147483648) mod 4294967296 - 2147483648 + n + 2147483648)
    with ((z + 2147483648) mod 4294967296 + n) by lia.
  rewrite Zplus_mod_idemp_l. do 2 f_equal. lia.
Qed.

Lemma int_add_small a b : INT_MIN ≤ a + b ≤ INT_MAX → int_add a b = a + b.
Proof. apply int_wrap_small. Qed.

(** ** The frequency table *)

#[export] Instance sumZ_perm : Proper ((≡ₚ) ==> (=)) sumZ.
Proof.
  intros l1 l2 Hp. unfold sumZ.
  induction Hp; simpl; [done | congruence | lia | congruence].
Qed.

Lemma sumZ_app l1 l2 : sumZ (l1 ++ l2) = sumZ l1 + sumZ l2.
Proof. unfold sumZ. induction l1 as [|x l1 IH]; simpl; lia. Qed.

Lemma buildFrequencyTable_loop_cons ch rest m :
  buildFrequencyTable_loop (String ch rest) m =
  buildFrequencyTable_loop rest (increment (sentinel ch) m).
Proof. simpl. unfold sentinel. by destruct (Ascii.eqb ch " "). Qed.

Lemma occurrences_nonneg key input : 0 ≤ occurrences key input.
Proof. induction input as [|ch rest IH]; simpl; [lia|]. case_decide; lia. Qed.

Lemma occurrences_pos key input :
  0 < occurrences key input ↔ ∃ ch, ch ∈ chars input ∧ sentinel ch = key.
Proof.
  induction input as [|ch rest IH]; simpl.
  - split; [lia|]. intros (ch & Hin & _). by apply elem_of_nil in Hin.
  - pose proof (occurrences_nonneg key rest). split.
    + intros Hpos. case_decide.
      * exists ch. split; [left|done].
      * destruct IH as [IH _]. destruct IH as (c & Hc & Hk); [lia|].
        exists c. split; [by right|done].
    + intros (c & Hc & Hk). apply elem_of_cons in Hc as [->|Hc].
      * case_decide; [lia|done].
      * assert (0 < occurrences key rest) by (apply IH; eauto).
        case_decide; lia.
Qed.

Lemma sumZ_cons x l : sumZ (x :: l) = x + sumZ l.
Proof. done. Qed.

Lemma chars_app s t : chars (s +:+ t) = chars s ++ chars t.
Proof.
  induction s as [|a s IH]; [done|]. rewrite string_app_cons. simpl. by rewrite IH.
Qed.

Lemma occurrences_count key input :
  occurrences key input =
  sumZ ((λ ch, if decide (sentinel ch = key) then 1 else 0) <$> chars input).
Proof.
  induction input as [|ch rest IH]; [done|].
  change (chars (String ch rest)) with (ch :: chars rest).
  rewrite fmap_cons, sumZ_cons, <- IH. done.
Qed.

Lemma occurrences_app key s t :
  occurrences key (s +:+ t) = occurrences key s + occurrences key t.
Proof. by rewrite !occurrences_count, chars_app, fmap_app, sumZ_app. Qed.

Lemma occurrences_le key input : occurrences key input ≤ string_size input.
Proof.
  unfold string_size. induction input as [|ch rest IH]; simpl String.length;
    simpl occurrences; [lia|]. case_decide; lia.
Qed.

Lemma buildFrequencyTable_loop_lookup input m key :
  buildFrequencyTable_loop input m !! key =
  if decide (occurrences key input = 0) then m !! key
  else Some (int_wrap (default 0 (m !! key) + occurrences key input)).
Proof.
  revert m. induction input as [|ch rest IH]; intros m.
  - reflexivity.
  - rewrite buildFrequencyTable_loop_cons, IH. simpl occurrences.
    pose proof (occurrences_nonneg key rest). unfold increment, int_add.
    destruct (decide (sentinel ch = key)) as [->|Hne].
    + rewrite lookup_insert_eq. simpl.
      rewrite (decide_False (P := 1 + _ = 0)) by lia.
      case_decide as H0; [rewrite H0|rewrite int_wrap_add]; do 2 f_equal; lia.
    + by rewrite lookup_insert_ne.
Qed.

(** The count of a key is the [int] that holds the number of characters
    counted under it. *)
Lemma buildFrequencyTable_lookup input key :
  buildFrequencyTable input !! key =
  if decide (occurrences key input = 0) then None
  else Some (int_wrap (occurrences key input)).
Proof.
  unfold buildFrequencyTable. rewrite buildFrequencyTable_loop_lookup.
  rewrite lookup_empty. case_decide; [done|]. simpl. do 2 f_equal.
Qed.

Lemma buildFrequencyTable_is_Some input key :
  is_Some (buildFrequencyTable input !! key) ↔ 0 < occurrences key input.
Proof.
  rewrite buildFrequencyTable_lookup.
  pose proof (occurrences_nonneg key input).
  case_decide; split; [by intros [? ?] | lia | lia | by eexists].
Qed.

Lemma buildFrequencyTable_char input ch :
  ch ∈ chars input → is_Some (buildFrequencyTable input !! sentinel ch).
Proof.
  intros Hch. apply buildFrequencyTable_is_Some, occurrences_pos. eauto.
Qed.

(** *** When no count overflows *)

Lemma counts_fit_key input :
  counts_fit input ↔ ∀ key, occurrences key input ≤ INT_MAX.
Proof.
  unfold counts_fit. rewrite Forall_forall. split; [|by auto].
  intros Hfit key. destruct (decide (0 < occurrences key input)) as [Hpos|Hz].
  - apply occurrences_pos in Hpos as (ch & Hch & <-). auto.
  - unfold INT_MAX. lia.
Qed.

(** An input of at most [INT_MAX] characters is such an input. *)
Lemma counts_fit_short input : string_size input ≤ INT_MAX → counts_fit input.
Proof.
  intros Hfits. apply counts_fit_key. intros key.
  pose proof (occurrences_le key input). lia.
Qed.

Lemma buildFrequencyTable_Some input key n :
  occurrences key input ≤ INT_MAX →
  buildFrequencyTable input !! key = Some n ↔
  n = occurrences key input ∧ 0 < n.
Proof.
  intros Hfits. rewrite buildFrequencyTable_lookup.
  pose proof (occurrences_nonneg key input).
  rewrite int_wrap_small by (unfold INT_MIN; lia).
  case_decide; split; [done | lia | intros [= <-]; lia | intros [-> _]; done].
Qed.

Lemma buildFrequencyTable_pos input :
  counts_fit input →
  map_Forall (λ _ count, 0 < count) (buildFrequencyTable input).
Proof.
  intros Hfits key n Hn. apply buildFrequencyTable_Some in Hn as [_ ?]; [done|].
  by apply counts_fit_key.
Qed.


Lemma total_insert_None (m : gmap ascii Z) k v :
  m !! k = None → total (<[k := v]> m) = v + total m.
Proof. intros Hk. unfold total. by rewrite map_to_list_insert. Qed.

Lemma total_insert_succ key (m : gmap ascii Z) :
  total (<[key := default 0 (m !! key) + 1]> m) = total m + 1.
Proof.
  destruct (m !! key) as [v|] eqn:Hk; simpl.
  - rewrite <- (insert_delete_eq m), total_insert_None
      by apply lookup_delete_eq.
    rewrite <- (insert_delete_id m key v) at 2 by done.
    rewrite total_insert_None by apply lookup_delete_eq. lia.
  - rewrite total_insert_None by done. lia.
Qed.

Lemma total_empty : total ∅ = 0.
Proof. unfold total. by rewrite map_to_list_empty. Qed.

(** When the counts of the map leave room for the characters that are
    still to be counted, the increment does not overflow, and the map
    it gives leaves room for the rest. *)
Lemma increment_room ch rest m :
  (∀ key, 0 ≤ default 0 (m !! key) ∧
          default 0 (m !! key) + occurrences key (String ch rest) ≤ INT_MAX) →
  increment (sentinel ch) m =
    <[sentinel ch := default 0 (m !! sentinel ch) + 1]> m ∧
  ∀ key, 0 ≤ default 0 (increment (sentinel ch) m !! key) ∧
         default 0 (increment (sentinel ch) m !! key) + occurrences key rest
           ≤ INT_MAX.
Proof.
  intros Hroom.
  assert (increment (sentinel ch) m =
          <[sentinel ch := default 0 (m !! sentinel ch) + 1]> m) as Hinc.
  { unfold increment, int_add. rewrite int_wrap_small; [done|].
    destruct (Hroom (sentinel ch)) as [H0 H1]. simpl occurrences in H1.
    rewrite decide_True in H1 by done.
    pose proof (occurrences_nonneg (sentinel ch) rest). unfold INT_MIN. lia. }
  split; [done|]. rewrite Hinc. intros key.
  destruct (Hroom key) as [H0 H1]. simpl occurrences in H1.
  pose proof (occurrences_nonneg key rest).
  destruct (decide (sentinel ch = key)) as [<-|Hne].
  - rewrite lookup_insert_eq. simpl. lia.
  - rewrite lookup_insert_ne by done. lia.
Qed.

Lemma total_buildFrequencyTable_loop input m :
  (∀ key, 0 ≤ default 0 (m !! key) ∧
          default 0 (m !! key) + occurrences key input ≤ INT_MAX) →
  total (buildFrequencyTable_loop input m) = total m + string_size input.
Proof.
  revert m. induction input as [|ch rest IH]; intros m Hroom.
  - unfold string_size. simpl. lia.
  - destruct (increment_room ch rest m Hroom) as [Hinc Hroom'].
    rewrite buildFrequencyTable_loop_cons, IH by done.
    rewrite Hinc, total_insert_succ.
    unfold string_size. simpl String.length. lia.
Qed.

Lemma total_buildFrequencyTable input :
  counts_fit input →
  total (buildFrequencyTable input) = string_size input.
Proof.
  intros Hfits. unfold buildFrequencyTable.
  rewrite total_buildFrequencyTable_loop, total_empty; [lia|].
  intros key. rewrite lookup_empty. simpl. split; [done|].
  by apply counts_fit_key.
Qed.

(** A symbol that occurs more than [INT_MAX] times has an entry that
    does not hold the number of its occurrences: the bound is needed. *)
Lemma buildFrequencyTable_overflow input key :
  INT_MAX < occurrences key input →
  ∃ count, buildFrequencyTable input !! key = Some count ∧
           count ≤ INT_MAX < occurrences key input.
Proof.
  intros Hover. exists (int_wrap (occurrences key input)).
  rewrite buildFrequencyTable_lookup.
  rewrite decide_False by (unfold INT_MAX in Hover; lia).
  pose proof (int_wrap_range (occurrences key input)). split; [done|lia].
Qed.

(** The sentinel and the space share the entry of the sentinel; the
    space has no entry of its own. *)
Lemma sentinel_dash ch : sentinel ch = "-"%char ↔ ch = " "%char ∨ ch = "-"%char.
Proof.
  unfold sentinel. destruct (Ascii.eqb_spec ch " ") as [->|Hne].
  - split; auto.
  - split; [auto|]. by intros [?|?].
Qed.

Lemma sentinel_not_space ch : sentinel ch ≠ " "%char.
Proof. unfold sentinel. by destruct (Ascii.eqb_spec ch " ") as [->|Hne]. Qed.

Lemma buildFrequencyTable_space input : buildFrequencyTable input !! " "%char = None.
Proof.
  rewrite buildFrequencyTable_lookup. rewrite decide_True; [done|].
  induction input as [|ch rest IH]; [done|]. simpl. rewrite IH.
  rewrite decide_False; [done|]. apply sentinel_not_space.
Qed.

(** *** Inputs that repeat one character *)





(** ** Leaves and their codes *)

Lemma is_null_true p : is_null p = true → p = nullptr.
Proof. by destruct p. Qed.

Lemma insert_codes_app code l1 l2 acc :
  insert_codes code (l1 ++ l2) acc =
  insert_codes code l2 (insert_codes code l1 acc).
Proof. apply foldl_app. Qed.

Lemma insert_codes_bit code bit l acc :
  insert_codes code (prod_map id (String bit) <$> l) acc =
  insert_codes (code +:+ String bit "") l acc.
Proof.
  revert acc. induction l as [|[c p] l IH]; intros acc; [done|].
  simpl. rewrite <- IH. simpl. by rewrite string_app_assoc.
Qed.

Lemma generateHuffmanCodes_insert_codes t code acc :
  generateHuffmanCodes t code acc = insert_codes code (leaf_codes t) acc.
Proof.
  revert code acc. induction t as [|ch f l IHl r IHr]; intros code acc; [done|].
  simpl. rewrite !insert_codes_app, !insert_codes_bit, IHl, IHr.
  destruct (is_null l && is_null r); simpl; [|done].
  by rewrite string_app_nil_r.
Qed.

Lemma insert_codes_lookup code l acc c p :
  insert_codes code l acc !! c = Some p →
  (∃ q, (c, q) ∈ l ∧ p = code +:+ q) ∨ acc !! c = Some p.
Proof.
  revert acc. induction l as [|[c' q'] l IH]; intros acc; simpl; [by right|].
  intros H. apply IH in H as [(q & Hq & ->)|H].
  - left. exists q. split; [by right|done].
  - simpl in H. destruct (decide (c' = c)) as [->|Hne].
    + rewrite lookup_insert_eq in H. injection H as <-.
      left. exists q'. split; [by left|done].
    + rewrite lookup_insert_ne in H by done. by right.
Qed.

Lemma insert_codes_lookup_notin code l acc c :
  c ∉ l.*1 → insert_codes code l acc !! c = acc !! c.
Proof.
  revert acc. induction l as [|[c' q'] l IH]; intros acc Hc; simpl; [done|].
  simpl in Hc. apply not_elem_of_cons in Hc as [Hne Hc].
  rewrite IH by done. simpl. by rewrite lookup_insert_ne.
Qed.

Lemma insert_codes_lookup_NoDup code l acc c q :
  NoDup l.*1 → (c, q) ∈ l → insert_codes code l acc !! c = Some (code +:+ q).
Proof.
  revert acc. induction l as [|[c' q'] l IH]; intros acc Hnd Hin.
  - by apply elem_of_nil in Hin.
  - simpl in Hnd. apply NoDup_cons in Hnd as [Hc' Hnd]. simpl.
    apply elem_of_cons in Hin as [[= <- <-]|Hin].
    + rewrite insert_codes_lookup_notin by done. simpl. apply lookup_insert_eq.
    + by apply IH.
Qed.

(** Every entry of the map that [generateHuffmanCodes] fills is the path
    to a leaf holding that character. *)
Lemma generateHuffmanCodes_lookup t c p :
  generateHuffmanCodes t "" ∅ !! c = Some p → (c, p) ∈ leaf_codes t.
Proof.
  rewrite generateHuffmanCodes_insert_codes. intros H.
  apply insert_codes_lookup in H as [(q & Hq & ->)|H]; [done|].
  by rewrite lookup_empty in H.
Qed.

Lemma generateHuffmanCodes_lookup_NoDup t c p :
  NoDup (leaf_codes t).*1 → (c, p) ∈ leaf_codes t →
  generateHuffmanCodes t "" ∅ !! c = Some p.
Proof.
  intros Hnd Hin. rewrite generateHuffmanCodes_insert_codes.
  by rewrite (insert_codes_lookup_NoDup "" _ _ c p).
Qed.

Lemma elem_of_leaf_codes_node a p ch f l r :
  (a, p) ∈ leaf_codes (node ch f l r) ↔
  (l = nullptr ∧ r = nullptr ∧ a = ch ∧ p = "") ∨
  (∃ q, p = String "0" q ∧ (a, q) ∈ leaf_codes l) ∨
  (∃ q, p = String "1" q ∧ (a, q) ∈ leaf_codes r).
Proof.
  simpl. rewrite !elem_of_app, !list_elem_of_fmap. split.
  - intros [H|[([c q] & [= -> ->] & Hq)|([c q] & [= -> ->] & Hq)]]; [|eauto..].
    destruct (is_null l && is_null r) eqn:Hlr; [|by apply elem_of_nil in H].
    apply andb_true_iff in Hlr as [Hl%is_null_true Hr%is_null_true].
    apply list_elem_of_singleton in H as [= -> ->]. by left.
  - intros [(-> & -> & -> & ->)|[(q & -> & Hq)|(q & -> & Hq)]].
    + left. simpl. by left.
    + right; left. by exists (a, q).
    + right; right. by exists (a, q).
Qed.

(** A path that reaches a leaf cannot be extended to another leaf. *)
Lemma leaf_codes_prefix t a b p s :
  (a, p) ∈ leaf_codes t → (b, p +:+ s) ∈ leaf_codes t → a = b ∧ s = "".
Proof.
  revert p. induction t as [|ch f l IHl r IHr]; intros p Ha Hb.
  - by apply elem_of_nil in Ha.
  - apply elem_of_leaf_codes_node in Ha, Hb.
    destruct Ha as [(-> & -> & -> & ->)|[(q & -> & Hq)|(q & -> & Hq)]].
    + destruct Hb as [(_ & _ & -> & Hs)|[(q' & _ & Hq')|(q' & _ & Hq')]];
        [done | by apply elem_of_nil in Hq'..].
    + destruct Hb as [(_ & _ & _ & [=])|[(q' & [= <-] & Hq')|(q' & [=] & _)]].
      eauto.
    + destruct Hb as [(_ & _ & _ & [=])|[(q' & [=] & _)|(q' & [= <-] & Hq')]].
      eauto.
Qed.

(** C5. In the code map that [generateHuffmanCodes] produces from a tree
    (any tree, hence every tree [buildHuffmanTree] returns), the codes of
    two distinct symbols are never a prefix of one another. *)
Theorem codes_prefix_free (root : NodePtr) (a b : ascii) (ca cb : string) :
  let huffmanCodes := generateHuffmanCodes root "" ∅ in
  a ≠ b →
  huffmanCodes !! a = Some ca →
  huffmanCodes !! b = Some cb →
  String.prefix ca cb = false ∧ String.prefix cb ca = false.
Proof.
  simpl. intros Hab Ha%generateHuffmanCodes_lookup Hb%generateHuffmanCodes_lookup.
  split; apply not_true_is_false; intros [s ->]%prefix_spec.
  - by destruct (leaf_codes_prefix _ _ _ _ _ Ha Hb).
  - by destruct (leaf_codes_prefix _ _ _ _ _ Hb Ha).
Qed.

(** ** The builder performs greedy merges *)

Lemma builds_perm F G t : F ≡ₚ G → builds F t → builds G t.
Proof.
  intros HFG Hb. destruct Hb as [t|F a b F' F'' t H1 H2 H3 H4 H5].
  - apply Permutation_singleton_l in HFG as <-. constructor.
  - eapply builds_step; [|done..]. by rewrite <- HFG.
Qed.

Lemma builds_singleton x t : builds [x] t → t = x.
Proof.
  inversion 1 as [|F a b F' F'' t' H1]; [done|].
  by apply Permutation_length in H1.
Qed.

(** When the two lightest trees are strictly lighter than the others,
    the first merge is determined. *)
Lemma least_unique F x G a H :
  F ≡ₚ x :: G → Forall (λ y, freq_of x < freq_of y) G →
  F ≡ₚ a :: H → Forall (λ y, freq_of a ≤ freq_of y) H →
  a = x ∧ G ≡ₚ H.
Proof.
  intros HxG Hx HaH Ha.
  assert (a = x) as ->.
  { assert (a ∈ x :: G) as Hin by (rewrite <- HxG, HaH; by left).
    apply elem_of_cons in Hin as [->|Hin]; [done|].
    rewrite Forall_forall in Hx. specialize (Hx a Hin).
    assert (x ∈ a :: H) as Hin' by (rewrite <- HaH, HxG; by left).
    apply elem_of_cons in Hin' as [->|Hin']; [done|].
    rewrite Forall_forall in Ha. specialize (Ha x Hin'). lia. }
  split; [done|]. apply (Permutation_cons_inv (a := x)). by rewrite <- HxG.
Qed.

Lemma builds_least F x y G t :
  builds F t → F ≡ₚ x :: y :: G →
  Forall (λ z, freq_of x < freq_of z) (y :: G) →
  Forall (λ z, freq_of y < freq_of z) G →
  builds (merge x y :: G) t.
Proof.
  intros Hb HF Hx Hy. destruct Hb as [t|F a b F' F'' t H1 H2 H3 H4 H5].
  - by apply Permutation_length in HF.
  - destruct (least_unique F x (y :: G) a (b :: F')) as [-> HG]; [done..|].
    destruct (least_unique (y :: G) y G b F') as [-> HG']; [done..|].
    eapply builds_perm; [|done]. by rewrite H4, HG'.
Qed.

Lemma builds_not_null F t :
  builds F t → Forall (λ x, x ≠ nullptr) F → t ≠ nullptr.
Proof.
  induction 1 as [t|F a b F' F'' t H1 H2 H3 H4 H5 IH]; intros Hnn.
  - by apply Forall_cons in Hnn as [? _].
  - apply IH. rewrite H4. rewrite H1 in Hnn.
    apply Forall_cons in Hnn as [_ Hnn]. apply Forall_cons in Hnn as [_ Hnn].
    by constructor.
Qed.

Lemma Compare_false x y : Compare x y = false ↔ freq_of x ≤ freq_of y.
Proof. unfold Compare. by rewrite Z.gtb_ltb, Z.ltb_ge. Qed.

Section Builder.
Context {lib : CxxLib}.

Lemma merge_loop_unfold fuel minHeap :
  merge_loop fuel minHeap =
  if (1 <? pq_size minHeap)%nat then
    match fuel with
    | O => OutOfFuel
    | S fuel' =>
        match pq_top minHeap with
        | None => Undefined
        | Some l =>
            match pq_top (pq_pop minHeap) with
            | None => Undefined
            | Some r =>
                merge_loop fuel'
                  (pq_push (merge l r) (pq_pop (pq_pop minHeap)))
            end
        end
    end
  else Ok minHeap.
Proof. by destruct fuel. Qed.

Lemma pq_top_Some q :
  pq_elems q ≠ [] →
  ∃ x, pq_top q = Some x ∧ pq_elems q ≡ₚ x :: pq_elems (pq_pop q) ∧
       Forall (λ y, freq_of x ≤ freq_of y) (pq_elems (pq_pop q)).
Proof.
  intros Hne. destruct (pq_top q) as [x|] eqn:Hx.
  - exists x. split; [done|]. pose proof (pq_pop_top q x Hx) as Hp.
    split; [done|]. pose proof (pq_top_first q x Hx) as Hf.
    rewrite Hp in Hf. apply Forall_cons in Hf as [_ Hf].
    eapply Forall_impl; [exact Hf|]. intros y. apply Compare_false.
  - by apply pq_top_None in Hx.
Qed.

(** The loop ends, within the fuel given by the size of the queue, with
    a queue of exactly one tree, reached by greedy merges. *)
Lemma merge_loop_builds fuel q :
  (length (pq_elems q) ≤ S fuel)%nat → pq_elems q ≠ [] →
  ∃ q' t, merge_loop fuel q = Ok q' ∧ pq_elems q' = [t] ∧
          builds (pq_elems q) t.
Proof.
  revert q. induction fuel as [|fuel IH]; intros q Hlen Hne;
    rewrite merge_loop_unfold, pq_size_elems;
    destruct (Nat.ltb_spec 1 (length (pq_elems q))) as [Hgt|Hle].
  - lia.
  - destruct (pq_elems q) as [|t [|]] eqn:Hq; simpl in *; [done| |lia].
    exists q, t. rewrite Hq. split_and!; [done..|constructor].
  - destruct (pq_top_Some q Hne) as (a & -> & Ha & Hmin_a).
    assert (pq_elems (pq_pop q) ≠ []) as Hne'.
    { intros Hnil. rewrite Ha, Hnil in Hgt. simpl in Hgt. lia. }
    destruct (pq_top_Some _ Hne') as (b & -> & Hb & Hmin_b).
    set (q'' := pq_push (merge a b) (pq_pop (pq_pop q))).
    assert (pq_elems q'' ≡ₚ merge a b :: pq_elems (pq_pop (pq_pop q))) as Hq''
      by apply pq_elems_push.
    destruct (IH q'') as (q' & t & Hrun & Hq' & Hbuilds).
    + rewrite Hq''. rewrite Ha, Hb in Hlen. simpl in *. lia.
    + intros Hnil. rewrite Hnil in Hq''. by apply Permutation_nil_cons in Hq''.
    + exists q', t. split_and!; [done..|].
      apply (builds_step _ a b (pq_elems (pq_pop (pq_pop q))) (pq_elems q''));
        [| |done..].
      * by rewrite Ha, Hb.
      * by rewrite <- Hb.
  - destruct (pq_elems q) as [|t [|]] eqn:Hq; simpl in *; [done| |lia].
    exists q, t. rewrite Hq. split_and!; [done..|constructor].
Qed.

Lemma push_all_elems entries q :
  pq_elems (push_all entries q) ≡ₚ
  ((λ pair, new_Node pair.1 pair.2) <$> entries) ++ pq_elems q.
Proof.
  unfold push_all. revert q. induction entries as [|e entries IH]; intros q.
  - done.
  - simpl. rewrite IH, pq_elems_push. by rewrite Permutation_middle.
Qed.

Lemma initial_heap_elems frequency :
  pq_elems (push_all (umap_iter frequency) pq_empty) ≡ₚ
  initial_forest frequency.
Proof.
  rewrite push_all_elems, pq_elems_empty, app_nil_r.
  unfold initial_forest. by rewrite umap_iter_perm.
Qed.

(** On a non-empty map the builder returns a tree, and the tree is the
    result of greedy merges of the leaves made from the map. *)
Theorem buildHuffmanTree_builds frequency :
  frequency ≠ ∅ →
  ∃ t, buildHuffmanTree frequency = Ok t ∧
       builds (initial_forest frequency) t.
Proof.
  intros Hne. unfold buildHuffmanTree.
  set (q := push_all (umap_iter frequency) pq_empty).
  pose proof (initial_heap_elems frequency) as Hq. fold q in Hq.
  destruct (merge_loop_builds (pq_size q) q) as (q' & t & -> & Hq' & Hb).
  - rewrite pq_size_elems. lia.
  - intros Hnil. rewrite Hnil in Hq. symmetry in Hq.
    apply Permutation_nil_r in Hq. unfold initial_forest in Hq.
    apply fmap_nil_inv in Hq. by apply map_to_list_empty_iff in Hq.
  - exists t. simpl. split; [|by eapply builds_perm].
    destruct (pq_top_Some q') as (x & -> & Hx & _); [by rewrite Hq'|].
    rewrite Hq' in Hx. apply Permutation_length in Hx as Hlen.
    destruct (pq_elems (pq_pop q')); [|done].
    by apply Permutation_singleton_l in Hx as [= ->].
Qed.

(** On the empty map the builder reads the top of an empty queue. *)
Theorem buildHuffmanTree_empty : buildHuffmanTree ∅ = Undefined.
Proof.
  unfold buildHuffmanTree.
  assert (umap_iter ∅ = []) as ->.
  { apply Permutation_nil_r. by rewrite umap_iter_perm, map_to_list_empty. }
  simpl. rewrite merge_loop_unfold, pq_size_elems, pq_elems_empty. simpl.
  assert (pq_top pq_empty = None) as ->; [|done].
  apply pq_top_None, pq_elems_empty.
Qed.

(** The loop bound of the model is never reached. *)
Lemma buildHuffmanTree_fuel frequency : buildHuffmanTree frequency ≠ OutOfFuel.
Proof.
  destruct (decide (frequency = ∅)) as [->|Hne].
  - by rewrite buildHuffmanTree_empty.
  - by destruct (buildHuffmanTree_builds frequency Hne) as (t & -> & _).
Qed.

End Builder.

(** ** Shape of the trees *)

Lemma weighted_strict t : weighted t → strict t.
Proof. induction 1; by constructor. Qed.

Lemma strict_not_null t : strict t → is_null t = false.
Proof. by destruct 1. Qed.

Lemma strict_merge a b : strict a → strict b → strict (merge a b).
Proof. intros. by constructor. Qed.

Lemma leaf_codes_leaves t : (leaf_codes t).*1 = (leaves t).*1.
Proof.
  assert (∀ bit (l : list (ascii * string)),
    (prod_map id (String bit) <$> l).*1 = l.*1) as Hbit.
  { intros bit l. rewrite <- list_fmap_compose.
    apply list_fmap_ext. by intros ? []. }
  induction t as [|ch f l IHl r IHr]; [done|]. simpl.
  rewrite !fmap_app, !Hbit, IHl, IHr.
  by destruct (is_null l && is_null r).
Qed.

Lemma initial_forest_strict frequency : Forall strict (initial_forest frequency).
Proof. apply Forall_fmap, Forall_forall. intros [ch f] _. constructor. Qed.

Lemma initial_forest_leaves frequency :
  initial_forest frequency ≫= leaves = map_to_list frequency.
Proof.
  unfold initial_forest. induction (map_to_list frequency) as [|[ch f] l IH];
    [done|]. by rewrite fmap_cons, bind_cons, IH.
Qed.

(** The trees of a forest stay strict under merges. *)
Lemma strict_step F a b F' F'' :
  F ≡ₚ a :: b :: F' → F'' ≡ₚ merge a b :: F' → Forall strict F →
  strict a ∧ strict b ∧ Forall strict F''.
Proof.
  intros H1 H4 HF. rewrite H1 in HF.
  apply Forall_cons in HF as [Ha HF]. apply Forall_cons in HF as [Hb HF].
  split_and!; [done..|]. rewrite H4. constructor; [by apply strict_merge|done].
Qed.

Lemma builds_strict F t : builds F t → Forall strict F → strict t.
Proof.
  induction 1 as [t|F a b F' F'' t H1 H2 H3 H4 H5 IH]; intros HF.
  - by apply Forall_cons in HF as [Ht _].
  - by destruct (strict_step _ _ _ _ _ H1 H4 HF) as (_ & _ & ?); auto.
Qed.

(** Merging keeps the leaves, with their frequencies. *)
Lemma builds_leaves F t :
  builds F t → Forall strict F → leaves t ≡ₚ F ≫= leaves.
Proof.
  induction 1 as [t|F a b F' F'' t H1 H2 H3 H4 H5 IH]; intros HF.
  - simpl. by rewrite app_nil_r.
  - destruct (strict_step _ _ _ _ _ H1 H4 HF) as (Ha & Hb & HF'').
    rewrite IH, H4, H1 by done.
    simpl. rewrite (strict_not_null a) by done.
    simpl. by rewrite app_assoc.
Qed.

(** With two trees or more to start from, the root is an inner node. *)
Lemma builds_root_inner F t :
  builds F t → Forall strict F → (2 ≤ length F)%nat → is_leaf t = false.
Proof.
  induction 1 as [t|F a b F' F'' t H1 H2 H3 H4 H5 IH]; intros HF Hlen.
  - simpl in Hlen. lia.
  - destruct (strict_step _ _ _ _ _ H1 H4 HF) as (Ha & Hb & HF'').
    destruct F' as [|c F'].
    + apply Permutation_singleton_r in H4 as ->.
      apply builds_singleton in H5 as ->. simpl.
      by rewrite (strict_not_null a) by done.
    + apply IH; [done|]. rewrite H4. simpl. lia.
Qed.

(** ** Frequencies of the trees, when the counts sum to an [int] *)

Lemma weighted_pos t : weighted t → 0 < freq_of t.
Proof. induction 1; simpl in *; lia. Qed.

(** The frequency of a weighted tree is the sum over its leaves. *)
Lemma weighted_freq_sum t : weighted t → freq_of t = sumZ (leaves t).*2.
Proof.
  induction 1 as [ch f Hf|ch f l r Hl IHl Hr IHr ->].
  - simpl. lia.
  - simpl. rewrite (strict_not_null l) by by apply weighted_strict.
    simpl. by rewrite fmap_app, sumZ_app, IHl, IHr.
Qed.

Lemma initial_forest_weighted frequency :
  map_Forall (λ _ count, 0 < count) frequency →
  Forall weighted (initial_forest frequency).
Proof.
  intros Hpos. apply Forall_fmap, Forall_forall. intros [ch f] Hin.
  apply elem_of_map_to_list in Hin. constructor. by eapply (Hpos ch).
Qed.

Lemma initial_forest_total frequency :
  sumZ (freq_of <$> initial_forest frequency) = total frequency.
Proof.
  unfold initial_forest, total. by rewrite <- list_fmap_compose.
Qed.

Lemma weighted_forest_nonneg F : Forall weighted F → 0 ≤ sumZ (freq_of <$> F).
Proof.
  induction 1 as [|x F Hx HF IH]; [done|].
  rewrite fmap_cons. change (0 ≤ freq_of x + sumZ (freq_of <$> F)).
  pose proof (weighted_pos x Hx). lia.
Qed.

(** While the frequencies of the forest sum to an [int], the sum that a
    merge computes does not overflow, and the forest keeps its sum. *)
Lemma weighted_step F a b F' F'' :
  F ≡ₚ a :: b :: F' → F'' ≡ₚ merge a b :: F' →
  Forall weighted F → sumZ (freq_of <$> F) ≤ INT_MAX →
  freq_of (merge a b) = freq_of a + freq_of b ∧
  weighted a ∧ weighted b ∧ Forall weighted F'' ∧
  sumZ (freq_of <$> F'') = sumZ (freq_of <$> F).
Proof.
  intros H1 H4 HF Hsum. rewrite H1 in HF, Hsum.
  apply Forall_cons in HF as [Ha HF]. apply Forall_cons in HF as [Hb HF].
  pose proof (weighted_pos a Ha). pose proof (weighted_pos b Hb).
  pose proof (weighted_forest_nonneg F' HF) as HF'.
  rewrite !fmap_cons in Hsum.
  change (freq_of a + (freq_of b + sumZ (freq_of <$> F')) ≤ INT_MAX) in Hsum.
  assert (freq_of (merge a b) = freq_of a + freq_of b) as Hm.
  { simpl. apply int_add_small. unfold INT_MIN. lia. }
  split_and!; [done..| |].
  - rewrite H4. constructor; [|done]. by constructor.
  - rewrite H4, H1, !fmap_cons.
    change (freq_of (merge a b) + sumZ (freq_of <$> F') =
            freq_of a + (freq_of b + sumZ (freq_of <$> F'))).
    lia.
Qed.

Lemma builds_weighted F t :
  builds F t → Forall weighted F → sumZ (freq_of <$> F) ≤ INT_MAX →
  weighted t.
Proof.
  induction 1 as [t|F a b F' F'' t H1 H2 H3 H4 H5 IH]; intros HF Hsum.
  - by apply Forall_cons in HF as [Ht _].
  - destruct (weighted_step _ _ _ _ _ H1 H4 HF Hsum) as (_ & _ & _ & HF'' & Hs).
    apply IH; [done|lia].
Qed.

(** ** Heavier nodes are never deeper *)





Lemma weighted_node_inv ch f l r :
  weighted (node ch f l r) →
  (l = nullptr ∧ r = nullptr ∧ 0 < f) ∨
  (weighted l ∧ weighted r ∧ f = freq_of l + freq_of r).
Proof. inversion 1; subst; auto. Qed.

Lemma occurs_nullptr x d : occurs nullptr x d → x = nullptr.
Proof. by inversion 1. Qed.

(** Every node of a weighted tree is weighted and weighs at most as much
    as the root. *)
Lemma occurs_weighted t x d :
  weighted t → occurs t x d → x ≠ nullptr →
  weighted x ∧ freq_of x ≤ freq_of t.
Proof.
  intros Ht Hx Hnull.
  induction Hx as [t|ch f l r x d H IH|ch f l r x d H IH].
  - split; [done|lia].
  - apply weighted_node_inv in Ht as [(-> & _)|(Hl & Hr & ->)].
    + by apply occurs_nullptr in H.
    + destruct (IH Hl Hnull). pose proof (weighted_pos r Hr). simpl.
      split; [done|lia].
  - apply weighted_node_inv in Ht as [(_ & -> & _)|(Hl & Hr & ->)].
    + by apply occurs_nullptr in H.
    + destruct (IH Hr Hnull). pose proof (weighted_pos l Hl). simpl.
      split; [done|lia].
Qed.

(** ** Encoding and decoding along the tree *)

Lemma encode_loop_encoding huffmanCodes input acc :
  (∀ ch, ch ∈ chars input → is_Some (huffmanCodes !! sentinel ch)) →
  encode_loop input huffmanCodes acc =
  Ok (acc +:+ encoding huffmanCodes input).
Proof.
  revert acc. induction input as [|ch rest IH]; intros acc Hdom.
  - simpl. by rewrite string_app_nil_r.
  - destruct (Hdom ch) as [code Hcode]; [by left|].
    assert (encode_loop (String ch rest) huffmanCodes acc =
            encode_loop rest huffmanCodes (acc +:+ code)) as ->.
    { simpl. unfold sentinel in Hcode. unfold at_.
      destruct (Ascii.eqb ch " "); by rewrite Hcode. }
    rewrite IH by (intros c Hc; apply Hdom; by right).
    simpl. unfold code_of. rewrite Hcode. simpl.
    by rewrite string_app_assoc.
Qed.

Lemma strict_nullptr : ¬ strict nullptr.
Proof. inversion 1. Qed.

Lemma strict_inner ch f l r : strict l → is_leaf (node ch f l r) = false.
Proof. intros Hl. simpl. by rewrite (strict_not_null l). Qed.

Lemma elem_of_leaf_codes_inner a p ch f l r :
  strict l → (a, p) ∈ leaf_codes (node ch f l r) →
  (∃ q, p = String "0" q ∧ (a, q) ∈ leaf_codes l) ∨
  (∃ q, p = String "1" q ∧ (a, q) ∈ leaf_codes r).
Proof.
  intros Hl [(-> & _)|H]%elem_of_leaf_codes_node; [|done].
  by apply strict_nullptr in Hl.
Qed.

(** Reading the code of a leaf below [current] emits that leaf and puts
    the cursor back on the root. *)
Lemma decode_loop_code root current ch code rest decoded :
  strict current → is_leaf current = false →
  (ch, code) ∈ leaf_codes current →
  decode_loop (code +:+ rest) root current decoded =
  decode_loop rest root root (decoded +:+ String (emitted ch) "").
Proof.
  intros Hs. revert code.
  induction Hs as [c f|c f l r Hl IHl Hr IHr]; intros code Hinner Hin; [done|].
  clear Hinner.
  destruct (elem_of_leaf_codes_inner _ _ _ _ _ _ Hl Hin)
    as [(q & -> & Hq)|(q & -> & Hq)]; rewrite string_app_cons; simpl.
  - destruct Hl as [c' f'|c' f' l' r' Hl' Hr'].
    + apply list_elem_of_singleton in Hq as [= -> ->]. done.
    + rewrite (strict_not_null l') by done. simpl.
      apply IHl; [by apply strict_inner|done].
  - destruct Hr as [c' f'|c' f' l' r' Hl' Hr'].
    + apply list_elem_of_singleton in Hq as [= -> ->]. done.
    + rewrite (strict_not_null l') by done. simpl.
      apply IHr; [by apply strict_inner|done].
Qed.

Lemma decode_loop_encoding root huffmanCodes input rest decoded :
  strict root → is_leaf root = false →
  (∀ ch, ch ∈ chars input →
     (sentinel ch, code_of huffmanCodes ch) ∈ leaf_codes root) →
  decode_loop (encoding huffmanCodes input +:+ rest) root root decoded =
  decode_loop rest root root
    (decoded +:+ string_map (λ ch, emitted (sentinel ch)) input).
Proof.
  intros Hs Hinner. revert decoded.
  induction input as [|ch input IH]; intros decoded Hcodes.
  - simpl. by rewrite string_app_nil_r.
  - simpl. rewrite string_app_assoc.
    rewrite (decode_loop_code root root (sentinel ch)) by (auto; apply Hcodes; by left).
    rewrite IH by (intros c Hc; apply Hcodes; by right).
    by rewrite string_app_assoc.
Qed.




(** ** The tree and the codes of a frequency map *)

Section Pipeline.
Context {lib : CxxLib}.

Lemma buildHuffmanTree_Ok frequency t :
  buildHuffmanTree frequency = Ok t →
  frequency ≠ ∅ ∧ builds (initial_forest frequency) t.
Proof.
  intros Ht. destruct (decide (frequency = ∅)) as [->|Hne].
  - by rewrite buildHuffmanTree_empty in Ht.
  - split; [done|].
    destruct (buildHuffmanTree_builds frequency Hne) as (t' & Ht' & Hb).
    congruence.
Qed.

Lemma initial_forest_length frequency :
  length (initial_forest frequency) = size frequency.
Proof. unfold initial_forest. by rewrite length_fmap, length_map_to_list. Qed.

Lemma buildHuffmanTree_built frequency t :
  buildHuffmanTree frequency = Ok t →
  built frequency t.
Proof.
  intros [Hne Hb]%buildHuffmanTree_Ok.
  pose proof (initial_forest_strict frequency) as HF.
  assert (leaves t ≡ₚ map_to_list frequency) as Hl.
  { by rewrite (builds_leaves _ _ Hb HF), initial_forest_leaves. }
  split; [done|by eapply builds_strict|done| |].
  - rewrite leaf_codes_leaves, Hl. apply NoDup_fst_map_to_list.
  - intros Hsize. eapply builds_root_inner; [done..|].
    by rewrite initial_forest_length.
Qed.

(** When the counts are positive and sum to an [int], every inner node
    of the tree holds the sum of the frequencies of its children. *)
Lemma buildHuffmanTree_weighted frequency t :
  map_Forall (λ _ count, 0 < count) frequency →
  total frequency ≤ INT_MAX →
  buildHuffmanTree frequency = Ok t →
  weighted t.
Proof.
  intros Hpos Hfits [Hne Hb]%buildHuffmanTree_Ok.
  eapply builds_weighted; [done|by apply initial_forest_weighted|].
  by rewrite initial_forest_total.
Qed.

Lemma built_code_of_key frequency t key count :
  built frequency t → frequency !! key = Some count →
  ∃ code, (key, code) ∈ leaf_codes t ∧
          generateHuffmanCodes t "" ∅ !! key = Some code.
Proof.
  intros [_ _ Hl Hnd _] Hkey.
  assert (key ∈ (leaf_codes t).*1) as Hin.
  { rewrite leaf_codes_leaves, Hl. apply list_elem_of_fmap.
    exists (key, count). split; [done|]. by apply elem_of_map_to_list. }
  apply list_elem_of_fmap in Hin as ([k code] & -> & Hin). simpl.
  exists code. split; [done|]. by apply generateHuffmanCodes_lookup_NoDup.
Qed.



(** On an input of at most [INT_MAX] characters every count and every
    node frequency lies between 1 and the length of the input: no [int]
    operation of the program overflows. *)
Lemma node_freq_bounded input t x d :
  string_size input ≤ INT_MAX →
  buildHuffmanTree (buildFrequencyTable input) = Ok t →
  occurs t x d → x ≠ nullptr →
  1 ≤ freq_of x ≤ string_size input.
Proof.
  intros Hfits Ht Hx Hnull.
  pose proof (counts_fit_short input Hfits) as Hfit.
  pose proof (total_buildFrequencyTable input Hfit) as Htotal.
  pose proof (buildHuffmanTree_built _ _ Ht) as [_ _ Hl _ _].
  assert (weighted t) as Hw.
  { eapply buildHuffmanTree_weighted; [by apply buildFrequencyTable_pos| |done].
    by rewrite Htotal. }
  destruct (occurs_weighted _ _ _ Hw Hx Hnull) as [Hwx Hle].
  pose proof (weighted_pos x Hwx).
  rewrite (weighted_freq_sum t Hw), Hl in Hle.
  fold (total (buildFrequencyTable input)) in Hle.
  lia.
Qed.

(** ** Inputs with two symbols or more *)

Lemma emitted_sentinel ch : ch ≠ "-"%char → emitted (sentinel ch) = ch.
Proof.
  intros Hne. unfold sentinel, emitted.
  destruct (Ascii.eqb_spec ch " ") as [->|Hsp]; [done|].
  by destruct (Ascii.eqb_spec ch "-").
Qed.

Lemma string_map_id f s : (∀ ch, ch ∈ chars s → f ch = ch) → string_map f s = s.
Proof.
  induction s as [|a s IH]; intros Hf; [done|]. simpl.
  rewrite Hf by by left. rewrite IH; [done|]. intros ch Hch. apply Hf. by right.
Qed.

Lemma covered_input input t :
  built (buildFrequencyTable input) t →
  covered (generateHuffmanCodes t "" ∅) input.
Proof.
  intros Hb ch Hch.
  destruct (buildFrequencyTable_char input ch Hch) as [count Hf].
  destruct (built_code_of_key _ _ _ _ Hb Hf) as (code & _ & ->). done.
Qed.

Lemma encode_loop_covered huffmanCodes text acc encoded :
  encode_loop text huffmanCodes acc = Ok encoded → covered huffmanCodes text.
Proof.
  revert acc. induction text as [|c text IH]; intros acc Henc ch Hch.
  - by apply elem_of_nil in Hch.
  - assert (encode_loop (String c text) huffmanCodes acc =
            code ← at_ huffmanCodes (sentinel c);
            encode_loop text huffmanCodes (acc +:+ code)) as Hstep.
    { simpl. unfold sentinel. by destruct (Ascii.eqb c " "). }
    rewrite Hstep in Henc. unfold at_ in Henc.
    destruct (huffmanCodes !! sentinel c) as [code|] eqn:Hcode; [|done].
    simpl in Henc. apply elem_of_cons in Hch as [->|Hch]; [by rewrite Hcode|].
    by eapply IH.
Qed.

(** Encoding a covered text succeeds, and decoding what it returns,
    followed or not by more bits, first gives the text back, every
    sentinel and every space as a space. *)
Lemma encode_decode t text :
  strict t → is_leaf t = false →
  let huffmanCodes := generateHuffmanCodes t "" ∅ in
  covered huffmanCodes text →
  encode text huffmanCodes = Ok (encoding huffmanCodes text) ∧
  ∀ rest decoded,
    decode_loop (encoding huffmanCodes text +:+ rest) t t decoded =
    decode_loop rest t t
      (decoded +:+ string_map (λ ch, emitted (sentinel ch)) text).
Proof.
  intros Hs Hinner codes Hcov.
  assert (∀ ch, ch ∈ chars text →
    (sentinel ch, code_of codes ch) ∈ leaf_codes t) as Hcodes.
  { intros ch [code Hcode]%Hcov. unfold code_of. rewrite Hcode. simpl.
    by apply generateHuffmanCodes_lookup. }
  split.
  - unfold encode. by rewrite encode_loop_encoding.
  - intros rest decoded. by apply decode_loop_encoding.
Qed.

(** The value of [round_trip] on every input with two symbols or more. *)
Theorem round_trip_two_symbols input :
  (2 ≤ size (buildFrequencyTable input))%nat →
  round_trip input = Ok (string_map (λ ch, emitted (sentinel ch)) input).
Proof.
  intros Hsize. unfold round_trip.
  destruct (buildHuffmanTree_builds (buildFrequencyTable input)) as (t & Ht & _).
  { intros Hnil. rewrite Hnil, map_size_empty in Hsize. lia. }
  rewrite Ht. simpl.
  pose proof (buildHuffmanTree_built _ _ Ht) as Hb.
  destruct (encode_decode t input) as [-> Hdec];
    [by apply Hb | by apply Hb | by apply covered_input |].
  simpl. unfold decode.
  rewrite <- (string_app_nil_r (encoding _ input)), Hdec. done.
Qed.

(** ** Inputs with a single symbol *)

Lemma buildHuffmanTree_singleton key count :
  buildHuffmanTree {[key := count]} = Ok (new_Node key count).
Proof.
  destruct (buildHuffmanTree_builds {[key := count]}) as (t & Ht & Hb).
  { apply insert_non_empty. }
  unfold initial_forest in Hb. rewrite map_to_list_singleton in Hb.
  by apply builds_singleton in Hb as ->.
Qed.

Lemma encoding_singleton key text :
  (∀ ch, ch ∈ chars text → sentinel ch = key) →
  encoding {[key := ""]} text = "".
Proof.
  induction text as [|ch text IH]; intros Hkey; [done|]. simpl.
  rewrite IH by (intros c Hc; apply Hkey; by right).
  unfold code_of. rewrite (Hkey ch) by by left.
  by rewrite lookup_singleton_eq.
Qed.

(** When all characters of the input are counted under one key, the tree
    is a single leaf, the only code is the empty string, and both the
    encoded and the decoded string are empty. *)
Theorem round_trip_one_symbol input key count :
  buildFrequencyTable input = {[key := count]} →
  buildHuffmanTree (buildFrequencyTable input) = Ok (new_Node key count) ∧
  generateHuffmanCodes (new_Node key count) "" ∅ = {[key := ""]} ∧
  encode input {[key := ""]} = Ok "" ∧
  round_trip input = Ok "".
Proof.
  intros Hfreq.
  assert (∀ ch, ch ∈ chars input → sentinel ch = key) as Hkey.
  { intros ch [n Hn]%(buildFrequencyTable_char input). rewrite Hfreq in Hn.
    by apply lookup_singleton_Some in Hn as [-> _]. }
  assert (encode input {[key := ""]} = Ok "") as Henc.
  { unfold encode. rewrite encode_loop_encoding.
    - by rewrite encoding_singleton.
    - intros ch Hch. rewrite (Hkey ch Hch), lookup_singleton_eq. done. }
  unfold round_trip. rewrite Hfreq, buildHuffmanTree_singleton.
  split_and!; [done..|]. simpl.
  change (<[key:=""]> ∅) with ({[key := ""]} : gmap ascii string).
  by rewrite Henc.
Qed.

End Pipeline.

(** ** The report of [run] *)

Section Run.
Context {lib : CxxLib}.

Lemma run_inv input rep :
  run input = Ok rep →
  frequency rep = buildFrequencyTable input ∧
  buildHuffmanTree (frequency rep) = Ok (root rep) ∧
  huffmanCodes rep = generateHuffmanCodes (root rep) "" ∅ ∧
  encode input (huffmanCodes rep) = Ok (encodedString rep) ∧
  decode (encodedString rep) (root rep) = Ok (decodedString rep) ∧
  round_trip input = Ok (decodedString rep) ∧
  verified rep = bool_decide (decodedString rep = input) ∧
  originalSize rep = (string_size input * 8) mod (size_t_max + 1) ∧
  compressedSize rep = string_size (encodedString rep) ∧
  compressionRatio rep = divide (originalSize rep) (compressedSize rep).
Proof.
  unfold run, round_trip.
  destruct (buildHuffmanTree (buildFrequencyTable input)) as [t| | |] eqn:Ht;
    simpl; [|done..].
  destruct (encode input (generateHuffmanCodes t "" ∅)) as [enc| | |] eqn:He;
    simpl; [|done..].
  destruct (decode enc t) as [dec| | |] eqn:Hd; simpl; [|done..].
  intros [= <-]. simpl. by rewrite He, Hd.
Qed.

Lemma run_round_trip input out :
  round_trip input = Ok out →
  ∃ rep, run input = Ok rep ∧ decodedString rep = out.
Proof.
  unfold run, round_trip.
  destruct (buildHuffmanTree (buildFrequencyTable input)) as [t| | |];
    simpl; [|done..].
  destruct (encode input (generateHuffmanCodes t "" ∅)) as [enc| | |];
    simpl; [|done..].
  intros ->. simpl. by eexists.
Qed.

Lemma round_trip_empty : round_trip "" = Undefined.
Proof. unfold round_trip. by rewrite buildHuffmanTree_empty. Qed.

End Run.

(** * Further properties of the specification *)

(** Where the round trip does hold: on every input that contains no
    literal '-' and has at least two distinct symbols, decoding the
    encoding of the input gives the input back. *)
Corollary round_trip_exact `{lib : CxxLib} (input : string) :
  "-"%char ∉ chars input →
  (2 ≤ size (buildFrequencyTable input))%nat →
  ∃ root encoded,
    buildHuffmanTree (buildFrequencyTable input) = Ok root ∧
    encode input (generateHuffmanCodes root "" ∅) = Ok encoded ∧
    decode encoded root = Ok input.
Proof.
  intros Hdash Hsize.
  pose proof (round_trip_two_symbols input Hsize) as Hrt.
  rewrite (string_map_id _ input) in Hrt.
  - apply run_round_trip in Hrt as (rep & Hrun & Hdec).
    apply run_inv in Hrun as (Hf & Ht & Hc & He & Hd & _).
    exists (root rep), (encodedString rep).
    split_and!; [by rewrite <- Hf | by rewrite <- Hc | by rewrite Hd, Hdec].
  - intros ch Hch. apply emitted_sentinel. by intros ->.
Qed.

(** C1. The round trip fails on inputs that the program receives.  The
    input "a-b", whose characters are all distinct, is decoded to "a b":
    the leaf of '-' is emitted as a space.  The input "a", of length 1,
    is decoded to the empty string.  In both runs the comparison of the
    decoded string with the input fails.  On the empty input the run
    does not reach the encoder: it ends in the undefined read of the top
    of an empty queue. *)
Theorem round_trip_fails `{lib : CxxLib} :
  (∃ rep, run "a-b" = Ok rep ∧
     decodedString rep = "a b" ∧ verified rep = false) ∧
  (∃ rep, run "a" = Ok rep ∧
     encodedString rep = "" ∧ decodedString rep = "" ∧ verified rep = false) ∧
  run "" = Undefined.
Proof.
  split_and!.
  - pose proof (round_trip_two_symbols "a-b") as Hrt.
    apply run_round_trip in Hrt as (rep & Hrun & Hdec); [|by vm_compute; lia].
    exists rep. apply run_inv in Hrun as Hinv.
    destruct Hinv as (_ & _ & _ & _ & _ & _ & Hv & _).
    split_and!; [done..|]. by rewrite Hv, Hdec.
  - destruct (round_trip_one_symbol "a" "a" 1) as (Ht & Hc & He & Hrt); [done|].
    apply run_round_trip in Hrt as (rep & Hrun & Hdec). exists rep.
    apply run_inv in Hrun as Hinv.
    destruct Hinv as (Hf & Ht' & Hc' & He' & _ & _ & Hv & _).
    rewrite Hf, Ht in Ht'. injection Ht' as Hroot.
    rewrite <- Hroot, Hc in Hc'. rewrite Hc', He in He'. injection He' as <-.
    split_and!; [done..|]. by rewrite Hv, Hdec.
  - unfold run. by rewrite buildHuffmanTree_empty.
Qed.

(** C2. On the input "aaaa" the code map has the single entry of 'a',
    whose code is the empty string; the encoded string is empty, the
    decoded string is empty, and the comparison with the input fails. *)
Theorem single_symbol_aaaa `{lib : CxxLib} :
  ∃ rep, run "aaaa" = Ok rep ∧
    huffmanCodes rep = {["a"%char := ""]} ∧
    encodedString rep = "" ∧
    decodedString rep = "" ∧
    verified rep = false.
Proof.
  destruct (round_trip_one_symbol "aaaa" "a" 4) as (Ht & Hc & He & Hrt); [done|].
  apply run_round_trip in Hrt as (rep & Hrun & Hdec). exists rep.
  apply run_inv in Hrun as Hinv.
  destruct Hinv as (Hf & Ht' & Hc' & He' & _ & _ & Hv & _).
  rewrite Hf, Ht in Ht'. injection Ht' as Hroot.
  rewrite <- Hroot, Hc in Hc'. rewrite Hc', He in He'. injection He' as <-.
  rewrite Hv, Hdec. done.
Qed.

(** C3. On the empty frequency map, which is the table of the empty
    line, the tree builder signals no error: it reads the top of an
    empty queue, which C++ leaves undefined, and the run of [main] ends
    there.  The empty map is the only one on which the builder returns
    no tree. *)
Theorem buildHuffmanTree_unchecked `{lib : CxxLib} :
  buildFrequencyTable "" = ∅ ∧
  buildHuffmanTree ∅ = Undefined ∧
  ¬ raises (buildHuffmanTree ∅) ∧
  run "" = Undefined ∧
  ∀ frequency, frequency ≠ ∅ →
    ∃ t, buildHuffmanTree frequency = Ok t ∧ t ≠ nullptr.
Proof.
  unfold raises. rewrite buildHuffmanTree_empty. split_and!; [done..| |].
  - unfold run. by rewrite buildHuffmanTree_empty.
  - intros frequency Hne.
    destruct (buildHuffmanTree_builds frequency Hne) as (t & Ht & Hb).
    exists t. split; [done|]. eapply builds_not_null; [done|].
    apply Forall_fmap, Forall_forall. by intros [??] _.
Qed.



(** C8. On the input "-" the frequency table has the single entry of
    '-', and the decoded string is empty: the '-' of the input does not
    appear in it, neither as a space nor otherwise. *)
Theorem sentinel_alone `{lib : CxxLib} :
  buildFrequencyTable "-" = {["-"%char := 1]} ∧
  round_trip "-" = Ok "" ∧
  ∃ rep, run "-" = Ok rep ∧ decodedString rep = "" ∧ verified rep = false.
Proof.
  split; [done|].
  destruct (round_trip_one_symbol "-" "-" 1) as (_ & _ & _ & Hrt); [done|].
  split; [done|].
  apply run_round_trip in Hrt as (rep & Hrun & Hdec). exists rep.
  apply run_inv in Hrun as Hinv. destruct Hinv as (_ & _ & _ & _ & _ & _ & Hv & _).
  by rewrite Hv, Hdec.
Qed.

(** C10 (as amended). The reported original size is the length of the
    input times 8 (for every input whose bit count fits [size_t]), the
    compressed size is the number of characters of the encoded string,
    and the ratio is their quotient computed without any guard: when the
    compressed size is zero the division by zero is carried out and its
    result is the IEEE infinity. *)
Theorem size_report `{lib : CxxLib} (input : string) (rep : Report) :
  run input = Ok rep →
  string_size input * 8 ≤ size_t_max →
  originalSize rep = string_size input * 8 ∧
  compressedSize rep = string_size (encodedString rep) ∧
  compressionRatio rep = divide (originalSize rep) (compressedSize rep) ∧
  (compressedSize rep = 0 → compressionRatio rep = Infinity).
Proof.
  intros Hrun Hfits. apply run_inv in Hrun as Hinv.
  destruct Hinv as (Hf & Ht & _ & _ & _ & _ & _ & Ho & Hc & Hr).
  assert (originalSize rep = string_size input * 8) as Ho'.
  { rewrite Ho. apply Z.mod_small. unfold string_size in *. lia. }
  split_and!; [done..|]. intros Hzero. rewrite Hr, Hzero. unfold divide. simpl.
  destruct input as [|ch rest].
  - rewrite Hf in Ht. by rewrite buildHuffmanTree_empty in Ht.
  - rewrite Ho'. unfold string_size. simpl String.length.
    destruct (Z.eqb_spec (Z.of_nat (S (String.length rest)) * 8) 0); [lia|done].
Qed.

(** * More properties of the program *)

(** ** Which inputs have a report, and what it holds *)

Lemma map_size_1_singleton (m : gmap ascii Z) :
  size m = 1%nat → ∃ key count, m = {[key := count]}.
Proof.
  intros Hsize. rewrite <- length_map_to_list in Hsize.
  destruct (map_to_list m) as [|[key count] [|]] eqn:Hl; [done| |done].
  exists key, count. rewrite <- (list_to_map_to_list m), Hl. done.
Qed.

Lemma buildFrequencyTable_nonempty input :
  input ≠ "" → buildFrequencyTable input ≠ ∅.
Proof.
  destruct input as [|ch rest]; [done|]. intros _ Hnil.
  assert (ch ∈ chars (String ch rest)) as Hch by by left.
  apply buildFrequencyTable_char in Hch as [n Hn]. by rewrite Hnil in Hn.
Qed.

Lemma string_map_fixed f s : string_map f s = s → ∀ ch, ch ∈ chars s → f ch = ch.
Proof.
  induction s as [|a s IH]; intros Heq ch Hch.
  - by apply elem_of_nil in Hch.
  - simpl in Heq. injection Heq as Ha Hs.
    apply elem_of_cons in Hch as [->|Hch]; auto.
Qed.

Section Reports.
Context {lib : CxxLib}.

(** The string that [round_trip] returns, by the number of symbols. *)
Lemma round_trip_value input :
  input ≠ "" →
  round_trip input =
  Ok (if decide (size (buildFrequencyTable input) = 1%nat) then ""
      else string_map (λ ch, emitted (sentinel ch)) input).
Proof.
  intros Hne. apply buildFrequencyTable_nonempty in Hne.
  apply map_size_non_empty_iff in Hne. case_decide as Hsize.
  - destruct (map_size_1_singleton _ Hsize) as (key & count & Hm).
    by destruct (round_trip_one_symbol input key count Hm) as (_ & _ & _ & ?).
  - apply round_trip_two_symbols. lia.
Qed.

Lemma run_nonempty input : input ≠ "" → ∃ rep, run input = Ok rep.
Proof.
  intros Hne. pose proof (round_trip_value input Hne) as Hrt.
  apply run_round_trip in Hrt as (rep & Hrun & _). eauto.
Qed.

End Reports.

(** X1. A run ends with a report exactly when the input is not empty:
    nothing is thrown, no null pointer is read.  On the empty input the
    outcome is the undefined read of the top of an empty queue. *)
Theorem run_completes `{lib : CxxLib} (input : string) :
  ((∃ rep, run input = Ok rep) ↔ input ≠ "") ∧
  (input = "" → run input = Undefined).
Proof.
  split; [split|].
  - intros [rep Hrun] ->. apply run_inv in Hrun as (_ & _ & _ & _ & _ & Hrt & _).
    by rewrite round_trip_empty in Hrt.
  - apply run_nonempty.
  - intros ->. unfold run. by rewrite buildHuffmanTree_empty.
Qed.


(** X3. The comparison of the decoded string with the input succeeds
    exactly when the input has at least two distinct symbols and no
    literal '-'. *)
Theorem verified_iff `{lib : CxxLib} (input : string) (rep : Report) :
  run input = Ok rep →
  verified rep = true ↔
  ("-"%char ∉ chars input) ∧ (2 ≤ size (frequency rep))%nat.
Proof.
  intros Hrun. apply run_inv in Hrun as (Hf & Ht & _ & _ & _ & Hrt & Hv & _).
  assert (input ≠ "") as Hne.
  { intros ->. by rewrite round_trip_empty in Hrt. }
  rewrite (round_trip_value input Hne), <- Hf in Hrt. injection Hrt as Hdec.
  assert (size (frequency rep) ≠ 0%nat) as Hsize.
  { rewrite Hf. by apply map_size_non_empty_iff, buildFrequencyTable_nonempty. }
  rewrite Hv, bool_decide_eq_true, <- Hdec. case_decide as H1.
  - split; [|lia]. intros <-. done.
  - split.
    + intros Heq. split; [|lia]. intros Hdash.
      by pose proof (string_map_fixed _ _ Heq _ Hdash).
    + intros [Hdash _]. apply string_map_id. intros ch Hch.
      apply emitted_sentinel. by intros ->.
Qed.

(** X4. For every input with a single symbol (all its characters are
    counted under one key) the tree is a lone leaf that holds the count
    of the key, the code map gives that key the empty code, the encoded
    and the decoded string are empty, the comparison with the input fails
    and the ratio is no finite quotient: the compressed size, by which it
    divides, is zero.  The count is the length of the input when that is
    at most [INT_MAX]. *)
Theorem one_symbol_report `{lib : CxxLib} (input : string) (rep : Report) :
  run input = Ok rep →
  size (frequency rep) = 1%nat →
  ∃ key count,
    frequency rep = {[key := count]} ∧
    (string_size input ≤ INT_MAX → count = string_size input) ∧
    root rep = new_Node key count ∧
    huffmanCodes rep = {[key := ""]} ∧
    encodedString rep = "" ∧
    decodedString rep = "" ∧
    verified rep = false ∧
    compressedSize rep = 0 ∧
    ∀ n d, compressionRatio rep ≠ Quotient n d.
Proof.
  intros Hrun Hsize.
  apply run_inv in Hrun as (Hf & Ht & Hc & He & _ & Hrt & Hv & Ho & Hcs & Hr).
  assert (input ≠ "") as Hne.
  { intros ->. by rewrite round_trip_empty in Hrt. }
  destruct (map_size_1_singleton _ Hsize) as (key & count & Hm).
  assert (string_size input ≤ INT_MAX → count = string_size input) as Hcount.
  { intros Hfits.
    rewrite <- (total_buildFrequencyTable input (counts_fit_short _ Hfits)),
      <- Hf, Hm.
    unfold total. rewrite map_to_list_singleton. simpl. lia. }
  rewrite Hf in Hm.
  destruct (round_trip_one_symbol input key _ Hm) as (Ht' & Hc' & He' & Hrt').
  rewrite Hf, Ht' in Ht. injection Ht as Hroot.
  rewrite <- Hroot, Hc' in Hc. rewrite Hc, He' in He. injection He as Henc.
  rewrite Hrt' in Hrt. injection Hrt as Hdec.
  exists key, count. rewrite Hf, Hm, <- Hroot, Hc, <- Henc, <- Hdec.
  split_and!; [done..| | |].
  - rewrite Hv, <- Hdec. by apply bool_decide_eq_false.
  - by rewrite Hcs, <- Henc.
  - intros n d. rewrite Hr, Hcs, <- Henc. unfold divide. simpl.
    by destruct (originalSize rep =? 0).
Qed.

(** ** The code map of a built tree *)


Lemma leaf_codes_bits t key code :
  (key, code) ∈ leaf_codes t → Forall is_bit (chars code).
Proof.
  revert code. induction t as [|ch f l IHl r IHr]; intros code Hin.
  - by apply elem_of_nil in Hin.
  - apply elem_of_leaf_codes_node in Hin
      as [(_ & _ & _ & ->)|[(q & -> & Hq)|(q & -> & Hq)]].
    + constructor.
    + constructor; [by left|auto].
    + constructor; [by right|auto].
Qed.

Lemma encode_loop_bits huffmanCodes text acc encoded :
  (∀ key code, huffmanCodes !! key = Some code → Forall is_bit (chars code)) →
  encode_loop text huffmanCodes acc = Ok encoded →
  Forall is_bit (chars acc) → Forall is_bit (chars encoded).
Proof.
  intros Hcodes. revert acc.
  induction text as [|c text IH]; intros acc Henc Hacc.
  - simpl in Henc. by injection Henc as <-.
  - assert (encode_loop (String c text) huffmanCodes acc =
            code ← at_ huffmanCodes (sentinel c);
            encode_loop text huffmanCodes (acc +:+ code)) as Hstep.
    { simpl. unfold sentinel. by destruct (Ascii.eqb c " "). }
    rewrite Hstep in Henc. unfold at_ in Henc.
    destruct (huffmanCodes !! sentinel c) as [code|] eqn:Hcode; [|done].
    simpl in Henc. apply (IH _ Henc). rewrite chars_app.
    apply Forall_app. eauto.
Qed.

(** X5. Whatever the tree and the text, a string that [encode] returns
    consists of the characters '0' and '1' only. *)
Theorem encoded_bits (root : NodePtr) (text encoded : string) :
  encode text (generateHuffmanCodes root "" ∅) = Ok encoded →
  Forall (λ c, c = "0"%char ∨ c = "1"%char) (chars encoded).
Proof.
  intros Henc. eapply (encode_loop_bits _ text ""); [|exact Henc|constructor].
  intros key code Hcode%generateHuffmanCodes_lookup.
  by eapply leaf_codes_bits.
Qed.

Lemma strict_leaf_codes_nonempty t : strict t → leaf_codes t ≠ [].
Proof.
  induction 1 as [ch f|ch f l r Hl IHl Hr IHr]; [done|]. simpl.
  rewrite (strict_not_null l) by done. simpl.
  destruct (leaf_codes l); [done|done].
Qed.

Lemma strict_code_length t key code :
  strict t → (key, code) ∈ leaf_codes t →
  (String.length code + 1 ≤ length (leaf_codes t))%nat.
Proof.
  intros Hs. revert code.
  induction Hs as [ch f|ch f l r Hl IHl Hr IHr]; intros code Hin.
  - apply list_elem_of_singleton in Hin as [= -> ->]. simpl. lia.
  - pose proof (strict_leaf_codes_nonempty l Hl) as Hnl.
    pose proof (strict_leaf_codes_nonempty r Hr) as Hnr.
    destruct (elem_of_leaf_codes_inner _ _ _ _ _ _ Hl Hin)
      as [(q & -> & Hq)|(q & -> & Hq)].
    + specialize (IHl q Hq). simpl. rewrite (strict_not_null l) by done.
      simpl. rewrite length_app, !length_fmap.
      destruct (leaf_codes r); [done|]. simpl. lia.
    + specialize (IHr q Hq). simpl. rewrite (strict_not_null l) by done.
      simpl. rewrite length_app, !length_fmap.
      destruct (leaf_codes l); [done|]. simpl. lia.
Qed.

Lemma inner_code_nonempty t key code :
  strict t → is_leaf t = false → (key, code) ∈ leaf_codes t → code ≠ "".
Proof.
  intros Hs Hinner Hin. destruct Hs as [ch f|ch f l r Hl Hr]; [done|].
  by destruct (elem_of_leaf_codes_inner _ _ _ _ _ _ Hl Hin)
    as [(q & -> & _)|(q & -> & _)].
Qed.

Lemma built_leaf_count frequency t :
  built frequency t → length (leaf_codes t) = size frequency.
Proof.
  intros Hb. rewrite <- (length_fmap fst), leaf_codes_leaves, length_fmap.
  by rewrite (built_leaves _ _ Hb), length_map_to_list.
Qed.

Section Codes.
Context {lib : CxxLib}.

(** X6. The code map has a code for exactly the symbols of the frequency
    map. *)
Theorem codes_domain (frequency : gmap ascii Z) (root : NodePtr) :
  map_Forall (λ _ count, 0 < count) frequency →
  buildHuffmanTree frequency = Ok root →
  dom (generateHuffmanCodes root "" ∅) = dom frequency.
Proof.
  intros _ Hroot.
  pose proof (buildHuffmanTree_built _ _ Hroot) as Hb.
  apply set_eq. intros key. rewrite !elem_of_dom. split.
  - intros [code Hcode%generateHuffmanCodes_lookup].
    assert (key ∈ (leaf_codes root).*1) as Hin.
    { apply list_elem_of_fmap. by exists (key, code). }
    rewrite leaf_codes_leaves, (built_leaves _ _ Hb) in Hin.
    apply list_elem_of_fmap in Hin as ([k n] & Hk & Hin). simpl in Hk. subst k.
    apply elem_of_map_to_list in Hin. eauto.
  - intros [count Hcount].
    destruct (built_code_of_key _ _ _ _ Hb Hcount) as (code & _ & Hcode). eauto.
Qed.

Lemma built_code_length frequency t key code :
  built frequency t → (2 ≤ size frequency)%nat →
  (key, code) ∈ leaf_codes t →
  (1 ≤ String.length code ≤ size frequency - 1)%nat.
Proof.
  intros Hb Hsize Hcode.
  assert (strict t) as Hs by by apply Hb.
  pose proof (strict_code_length _ _ _ Hs Hcode) as Hlen.
  rewrite (built_leaf_count _ _ Hb) in Hlen.
  pose proof (inner_code_nonempty _ _ _ Hs (built_inner _ _ Hb Hsize) Hcode).
  destruct code; [done|]. simpl in *. lia.
Qed.

(** X7. When the frequency map has [n] symbols, [n] at least 2, every
    code has at least 1 and at most [n - 1] bits. *)
Theorem code_length_bounds (frequency : gmap ascii Z) (root : NodePtr)
    (key : ascii) (code : string) :
  map_Forall (λ _ count, 0 < count) frequency →
  buildHuffmanTree frequency = Ok root →
  (2 ≤ size frequency)%nat →
  generateHuffmanCodes root "" ∅ !! key = Some code →
  (1 ≤ String.length code ≤ size frequency - 1)%nat.
Proof.
  intros _ Hroot Hsize Hcode%generateHuffmanCodes_lookup.
  pose proof (buildHuffmanTree_built _ _ Hroot) as Hb.
  by eapply built_code_length.
Qed.

(** X8. The tree that the builder returns for a map of positive counts
    whose sum is at most [INT_MAX] is a strict binary tree; its leaves
    are the entries of the map, each symbol once and with its count;
    every inner node holds the sum of the frequencies of its two
    children; and the root holds the sum of all counts. *)
Theorem tree_shape (frequency : gmap ascii Z) (root : NodePtr) :
  map_Forall (λ _ count, 0 < count) frequency →
  total frequency ≤ INT_MAX →
  buildHuffmanTree frequency = Ok root →
  weighted root ∧ strict root ∧
  leaves root ≡ₚ map_to_list frequency ∧
  freq_of root = total frequency.
Proof.
  intros Hpos Hfits Hroot.
  pose proof (buildHuffmanTree_built _ _ Hroot) as [_ Hs Hl _ _].
  pose proof (buildHuffmanTree_weighted _ _ Hpos Hfits Hroot) as Hw.
  split_and!; [done..|].
  by rewrite (weighted_freq_sum root Hw), Hl.
Qed.

(** X9. The tree that the builder returns is the outcome of Huffman's
    greedy procedure on the leaves made from the map: again and again
    two trees of least frequency are taken out and their merge, the
    lighter one on the left, is put back.  The merge holds the [int] sum
    of the two frequencies, as in the program. *)
Theorem huffman_greedy (frequency : gmap ascii Z) (root : NodePtr) :
  buildHuffmanTree frequency = Ok root →
  builds (initial_forest frequency) root.
Proof. intros Hroot. by apply buildHuffmanTree_Ok in Hroot as [_ ?]. Qed.

End Codes.

(** ** The compressed size *)









Section Sizes.
Context {lib : CxxLib}.




End Sizes.

(** ** The decoder on any tree and any string *)

Lemma emitted_not_dash ch : emitted ch ≠ "-"%char.
Proof.
  unfold emitted. destruct (Ascii.eqb_spec ch "-") as [->|Hne]; done.
Qed.

Lemma decode_loop_output encodedString root current decoded out :
  decode_loop encodedString root current decoded = Ok out →
  ∃ emitted_chars,
    out = decoded +:+ emitted_chars ∧
    ("-"%char ∉ chars emitted_chars) ∧
    (String.length emitted_chars ≤ String.length encodedString)%nat.
Proof.
  revert current decoded.
  induction encodedString as [|bit rest IH]; intros current decoded Hdec.
  - injection Hdec as <-. exists "". rewrite string_app_nil_r.
    split_and!; [done| |done]. apply not_elem_of_nil.
  - simpl in Hdec. destruct current as [|c f l r]; [done|].
    destruct (if Ascii.eqb bit "0" then l else r) as [|c' f' l' r'] eqn:Hnext;
      [done|].
    destruct (is_null l' && is_null r').
    + apply IH in Hdec as (more & -> & Hdash & Hlen).
      exists (String (emitted c') more). split_and!.
      * by rewrite string_app_assoc.
      * simpl. apply not_elem_of_cons. split; [|done].
        intros Heq. by apply (emitted_not_dash c').
      * simpl. lia.
    + apply IH in Hdec as (more & -> & Hdash & Hlen).
      exists more. split_and!; [done..|]. simpl. lia.
Qed.

Lemma string_map_emitted_sentinel text :
  string_map (λ ch, emitted (sentinel ch)) text =
  string_map (λ ch, if Ascii.eqb ch "-" then " "%char else ch) text.
Proof.
  induction text as [|ch rest IH]; [done|]. simpl. rewrite IH. f_equal.
  unfold emitted, sentinel. by destruct (Ascii.eqb_spec ch " ") as [->|Hsp].
Qed.

(** X12. Whatever the tree and the bit string, when [decode] returns a
    string, that string holds no '-' and has at most as many characters
    as the bit string has bits. *)
Theorem decode_output (encodedString : string) (root : NodePtr) (out : string) :
  decode encodedString root = Ok out →
  ("-"%char ∉ chars out) ∧
  (String.length out ≤ String.length encodedString)%nat.
Proof.
  intros (more & -> & Hdash & Hlen)%decode_loop_output. done.
Qed.

(** X13. The round trip needs no Huffman tree: for every strict binary
    tree whose root is an inner node, with the code map made from it,
    decoding what [encode] returns for a text gives the text back, every
    '-' as a space. *)
Theorem any_tree_round_trip (root : NodePtr) (text encoded : string) :
  strict root → is_leaf root = false →
  encode text (generateHuffmanCodes root "" ∅) = Ok encoded →
  decode encoded root =
    Ok (string_map (λ ch, if Ascii.eqb ch "-" then " "%char else ch) text).
Proof.
  intros Hs Hinner Henc.
  destruct (encode_decode root text Hs Hinner) as [Henc' Hdec].
  { by eapply encode_loop_covered. }
  rewrite Henc in Henc'. injection Henc' as ->. unfold decode.
  rewrite <- (string_app_nil_r (encoding _ text)), Hdec. simpl. f_equal.
  exact (string_map_emitted_sentinel text).
Qed.

(** ** The outcome of encode *)

Lemma encode_loop_missing huffmanCodes text acc ch :
  ch ∈ chars text → huffmanCodes !! sentinel ch = None →
  encode_loop text huffmanCodes acc = OutOfRange.
Proof.
  revert acc. induction text as [|c text IH]; intros acc Hch Hnone.
  - by apply elem_of_nil in Hch.
  - assert (encode_loop (String c text) huffmanCodes acc =
            code ← at_ huffmanCodes (sentinel c);
            encode_loop text huffmanCodes (acc +:+ code)) as ->.
    { simpl. unfold sentinel. by destruct (Ascii.eqb c " "). }
    unfold at_. destruct (huffmanCodes !! sentinel c) as [code|] eqn:Hcode;
      [|done]. simpl.
    apply elem_of_cons in Hch as [->|Hch]; [congruence|]. by apply IH.
Qed.

(** X14. [encode] returns the concatenation of the codes when every
    character of the text has a code, a space having the code of '-';
    otherwise the lookup throws [std::out_of_range] and no string is
    returned.  It has no other outcome. *)
Theorem encode_outcome (text : string) (huffmanCodes : gmap ascii string) :
  ((∀ ch, ch ∈ chars text → is_Some (huffmanCodes !! sentinel ch)) →
     encode text huffmanCodes = Ok (encoding huffmanCodes text)) ∧
  (∀ ch, ch ∈ chars text → huffmanCodes !! sentinel ch = None →
     encode text huffmanCodes = OutOfRange) ∧
  (encode text huffmanCodes = Ok (encoding huffmanCodes text) ∨
   encode text huffmanCodes = OutOfRange).
Proof.
  split_and!.
  - intros Hcov. unfold encode. by rewrite encode_loop_encoding.
  - intros ch Hch Hnone. by eapply encode_loop_missing.
  - destruct (decide (Forall (λ ch, is_Some (huffmanCodes !! sentinel ch))
                        (chars text))) as [Hall|Hnot].
    + left. unfold encode. rewrite encode_loop_encoding; [done|].
      by apply Forall_forall.
    + right. apply not_Forall_Exists in Hnot; [|apply _].
      apply Exists_exists in Hnot as (ch & Hch & Hnone).
      eapply encode_loop_missing; [done|].
      by apply eq_None_not_Some.
Qed.

(** ** The frequency table *)

(** X15. The frequency table depends on the characters of the input and
    not on their order: two inputs that are rearrangements of one
    another have the same table. *)
Theorem frequency_table_order (input1 input2 : string) :
  chars input1 ≡ₚ chars input2 →
  buildFrequencyTable input1 = buildFrequencyTable input2.
Proof.
  intros Hperm. apply map_eq. intros key.
  assert (occurrences key input1 = occurrences key input2) as Hocc.
  { rewrite !occurrences_count. by apply sumZ_perm, fmap_Permutation. }
  by rewrite !buildFrequencyTable_lookup, Hocc.
Qed.

(** X16. The table of a concatenation adds up the counts of the two
    parts, for every key that the concatenation counts at most [INT_MAX]
    times. *)
Theorem frequency_table_app (input1 input2 : string) (key : ascii) :
  occurrences key (input1 +:+ input2) ≤ INT_MAX →
  default 0 (buildFrequencyTable (input1 +:+ input2) !! key) =
  default 0 (buildFrequencyTable input1 !! key) +
  default 0 (buildFrequencyTable input2 !! key).
Proof.
  intros Hfits.
  pose proof (occurrences_app key input1 input2) as Hocc.
  pose proof (occurrences_nonneg key input1).
  pose proof (occurrences_nonneg key input2).
  rewrite !buildFrequencyTable_lookup, Hocc.
  rewrite !int_wrap_small by (unfold INT_MIN; lia).
  repeat case_decide; simpl; lia.
Qed.

(** X17. The keys of the table are the characters of the input, with
    '-' in place of the space: the table never has an entry for the
    space, and it is empty exactly when the input is. *)
Theorem frequency_table_keys (input : string) (key : ascii) :
  (key ∈ dom (buildFrequencyTable input) ↔
     ∃ ch, ch ∈ chars input ∧ (if Ascii.eqb ch " " then "-"%char else ch) = key) ∧
  (" "%char ∉ dom (buildFrequencyTable input)) ∧
  (buildFrequencyTable input = ∅ ↔ input = "").
Proof.
  split_and!.
  - by rewrite elem_of_dom, <- (occurrences_pos key input),
      buildFrequencyTable_is_Some.
  - apply not_elem_of_dom, buildFrequencyTable_space.
  - split; [|by intros ->]. intros Hnil.
    destruct (decide (input = "")) as [|Hne]; [done|].
    by apply buildFrequencyTable_nonempty in Hne.
Qed.

(** ** The two lightest symbols *)

Lemma below_merge_left t a b p :
  a ≠ nullptr → below t (merge a b) p → below t a (p +:+ "0").
Proof.
  intros Ha Hm key code Hin. rewrite string_app_assoc. apply Hm.
  apply elem_of_leaf_codes_node. right; left. eauto.
Qed.

Lemma below_merge_right t a b p :
  below t (merge a b) p → below t b (p +:+ "1").
Proof.
  intros Hm key code Hin. rewrite string_app_assoc. apply Hm.
  apply elem_of_leaf_codes_node. right; right. eauto.
Qed.

(** Every tree of the forest ends up somewhere in the final tree. *)
Lemma builds_below F t :
  builds F t → Forall (λ y, y ≠ nullptr) F → ∀ x, x ∈ F → ∃ p, below t x p.
Proof.
  induction 1 as [t|F a b F' F'' t H1 H2 H3 H4 H5 IH]; intros Hnn x Hx.
  - apply list_elem_of_singleton in Hx as ->. exists "". by intros key code.
  - rewrite H1 in Hnn, Hx.
    apply Forall_cons in Hnn as [Ha Hnn]. apply Forall_cons in Hnn as [Hb Hnn].
    assert (Forall (λ y, y ≠ nullptr) F'') as Hnn''.
    { rewrite H4. by constructor. }
    apply elem_of_cons in Hx as [->|Hx]; [|apply elem_of_cons in Hx as [->|Hx]].
    + destruct (IH Hnn'' (merge a b)) as [p Hp]; [rewrite H4; by left|].
      exists (p +:+ "0"). by eapply below_merge_left.
    + destruct (IH Hnn'' (merge a b)) as [p Hp]; [rewrite H4; by left|].
      exists (p +:+ "1"). by eapply below_merge_right.
    + apply IH; [done|]. rewrite H4. by right.
Qed.

Section Lightest.
Context {lib : CxxLib}.

(** X18. When one symbol is strictly the least frequent and another one
    strictly the second least, the two are siblings in the tree, the
    least frequent on the left: their codes have the same length and
    differ in the last bit only, which is '0' for the least frequent and
    '1' for the other. *)
Theorem lightest_siblings (frequency : gmap ascii Z) (root : NodePtr)
    (a b : ascii) (fa fb : Z) :
  map_Forall (λ _ count, 0 < count) frequency →
  buildHuffmanTree frequency = Ok root →
  frequency !! a = Some fa →
  frequency !! b = Some fb →
  fa < fb →
  map_Forall (λ key count, key = a ∨ key = b ∨ fb < count) frequency →
  ∃ prefix,
    generateHuffmanCodes root "" ∅ !! a = Some (prefix +:+ "0") ∧
    generateHuffmanCodes root "" ∅ !! b = Some (prefix +:+ "1").
Proof.
  intros _ Hroot Ha Hb Hlt Hothers.
  pose proof (buildHuffmanTree_built _ _ Hroot) as [Hbuilds _ _ Hnd _].
  assert (a ≠ b) as Hab by (intros ->; rewrite Ha in Hb; injection Hb; lia).
  set (rest := (λ pair, new_Node pair.1 pair.2) <$>
                 map_to_list (delete b (delete a frequency))).
  assert (initial_forest frequency ≡ₚ new_Node a fa :: new_Node b fb :: rest)
    as Hperm.
  { unfold initial_forest, rest.
    rewrite <- (map_to_list_delete frequency a fa Ha).
    rewrite <- (map_to_list_delete (delete a frequency) b fb)
      by by rewrite lookup_delete_ne.
    done. }
  assert (Forall (λ z, fb < freq_of z) rest) as Hrest.
  { apply Forall_fmap, Forall_forall. intros [key count] Hin. simpl.
    apply elem_of_map_to_list in Hin.
    apply lookup_delete_Some in Hin as [Hkb Hin].
    apply lookup_delete_Some in Hin as [Hka Hin].
    by destruct (Hothers key count Hin) as [?|[?|?]]. }
  apply (builds_least _ (new_Node a fa) (new_Node b fb) rest) in Hbuilds;
    [|done| |done].
  - destruct (builds_below _ _ Hbuilds)
      with (x := merge (new_Node a fa) (new_Node b fb)) as [p Hp].
    + constructor; [done|]. apply Forall_fmap, Forall_forall. by intros [??] _.
    + by left.
    + exists p. split; apply generateHuffmanCodes_lookup_NoDup; try done.
      * apply (Hp a "0"). apply elem_of_leaf_codes_node. right; left.
        exists "". split; [done|]. simpl. by left.
      * apply (Hp b "1"). apply elem_of_leaf_codes_node. right; right.
        exists "". split; [done|]. simpl. by left.
  - constructor; [simpl; lia|].
    eapply Forall_impl; [exact Hrest|]. simpl. intros z Hz. lia.
Qed.

End Lightest.

(** ** The session *)

Lemma split_line_one_line line rest :
  one_line line →
  split_line (line +:+ String newline rest) = (line, Some rest).
Proof.
  induction line as [|c line IH]; intros Hline; [done|].
  apply not_elem_of_cons in Hline as [Hc Hline].
  rewrite string_app_cons. simpl.
  destruct (Ascii.eqb_spec c "010") as [->|_]; [done|].
  by rewrite (IH Hline).
Qed.

Lemma getline_one_line line rest str :
  one_line line →
  getline {| unread := line +:+ String newline rest;
             eofbit := false; failbit := false |} str =
  ({| unread := rest; eofbit := false; failbit := false |}, line).
Proof. intros Hline. unfold getline. simpl. by rewrite split_line_one_line. Qed.



Lemma ignore_cons c rest :
  ignore {| unread := String c rest; eofbit := false; failbit := false |} =
  {| unread := rest; eofbit := false; failbit := false |}.
Proof. done. Qed.


Lemma yes_eqb answer :
  String.eqb answer "y" || String.eqb answer "Y" = true ↔ yes answer.
Proof.
  unfold yes. rewrite orb_true_iff, !String.eqb_eq. done.
Qed.

Section Session.
Context {lib : CxxLib}.


Lemma main_loop_round fuel line answer rest input testAnother :
  one_line line → one_line answer →
  main_loop (S fuel)
    {| unread := line +:+ String newline (answer +:+ String newline rest);
       eofbit := false; failbit := false |} input testAnother =
  report ← run line;
  if String.eqb answer "y" || String.eqb answer "Y" then
    reports ← main_loop fuel
      (ignore {| unread := rest; eofbit := false; failbit := false |})
      line answer;
    Ok (report :: reports)
  else Ok [report].
Proof.
  intros Hline Hanswer. simpl main_loop.
  rewrite (getline_one_line line _ input Hline).
  destruct (run line) as [rep| | |]; [|done..]. simpl.
  by rewrite (getline_one_line answer _ testAnother Hanswer).
Qed.

Lemma session_rounds_loop fuel line answer more rest input testAnother :
  well_typed line answer more → ends_with_no answer more →
  (length more < fuel)%nat →
  main_loop fuel
    {| unread := session_text line answer more rest;
       eofbit := false; failbit := false |} input testAnother =
  run_all (session_lines line more).
Proof.
  revert line answer fuel input testAnother.
  induction more as [|[[first line'] answer'] more IH];
    intros line answer fuel input testAnother (Hline & Hanswer & Hmore) Hends Hfuel;
    (destruct fuel as [|fuel]; [simpl in Hfuel; lia|]);
    simpl session_text; rewrite main_loop_round by done.
  - simpl in Hends. simpl.
    destruct (String.eqb answer "y" || String.eqb answer "Y") eqn:Hyes.
    + by apply yes_eqb in Hyes.
    + by destruct (run line).
  - destruct Hends as [Hyes Hends]. apply yes_eqb in Hyes as ->.
    apply Forall_cons in Hmore as [[Hline' Hanswer'] Hmore].
    rewrite ignore_cons, IH; [done|done|done|]. simpl in Hfuel. lia.
Qed.

(** X19. A session in which every answer but the last is "y" or "Y" ends
    after the last answer, and its rounds run on the typed lines, except
    that from the second round on the first character typed is lost:
    [cin.ignore()] has taken it. *)
Theorem session_rounds (fuel : nat) (line answer : string)
    (more : list (ascii * string * string)) (rest : string) :
  well_typed line answer more → ends_with_no answer more →
  (length more < fuel)%nat →
  main fuel (session_text line answer more rest) =
  run_all (session_lines line more).
Proof. intros. by apply session_rounds_loop. Qed.





End Session.

(** * The program on concrete inputs *)

(** ** With any library

    On the inputs below no choice between nodes of equal frequency
    arises, or the choice does not matter. *)

Lemma buildHuffmanTree_aaaabbc `{lib : CxxLib} :
  buildHuffmanTree (buildFrequencyTable "aaaabbc") = Ok tree_aaaabbc.
Proof.
  destruct (buildHuffmanTree_builds (buildFrequencyTable "aaaabbc"))
    as (t & -> & Hb); [done|]. f_equal.
  apply (builds_least _ (new_Node "c" 1) (new_Node "b" 2) [new_Node "a" 4])
    in Hb.
  - apply (builds_least _ (merge (new_Node "c" 1) (new_Node "b" 2))
      (new_Node "a" 4) []) in Hb.
    + by apply builds_singleton in Hb.
    + done.
    + repeat constructor.
    + constructor.
  - vm_compute. apply perm_skip, perm_swap.
  - repeat constructor.
  - repeat constructor.
Qed.


(** The tree of [heavy_map]: at every round the two lightest trees are
    strictly lighter than the others.  The sum of the frequencies of 'A'
    and 'B' is 2^31 + 1, which wraps around to -(2^31 - 1). *)
Lemma buildHuffmanTree_heavy `{lib : CxxLib} :
  buildHuffmanTree heavy_map = Ok heavy_tree.
Proof.
  destruct (buildHuffmanTree_builds heavy_map) as (t & -> & Hb); [done|]. f_equal.
  set (A := new_Node "A" 1073741824). set (B := new_Node "B" 1073741825).
  set (p := new_Node "p" 536870913). set (q := new_Node "q" 536870914).
  set (r := new_Node "r" 536870915). set (s := new_Node "s" 536870916).
  apply (builds_least _ p q [r; s; A; B]) in Hb;
    [|apply (bool_decide_unpack _); vm_compute; exact I
     |repeat constructor..].
  apply (builds_least _ r s [A; B; merge p q]) in Hb;
    [|apply (bool_decide_unpack _); vm_compute; exact I
     |repeat constructor..].
  apply (builds_least _ A B [merge p q; merge r s]) in Hb;
    [|apply (bool_decide_unpack _); vm_compute; exact I
     |repeat constructor..].
  apply (builds_least _ (merge A B) (merge p q) [merge r s]) in Hb;
    [|apply (bool_decide_unpack _); vm_compute; exact I
     |repeat constructor..].
  apply (builds_least _ (merge (merge A B) (merge p q)) (merge r s) []) in Hb;
    [|apply (bool_decide_unpack _); vm_compute; exact I
     |repeat constructor..].
  by apply builds_singleton in Hb.
Qed.

Lemma run_aaaa `{lib : CxxLib} : run "aaaa" = Ok report_aaaa.
Proof.
  destruct (round_trip_one_symbol "aaaa" "a" 4) as (Ht & Hc & He & _); [done|].
  unfold run. rewrite Ht. simpl.
  change (<["a"%char:=""]> ∅) with ({["a"%char := ""]} : gmap ascii string).
  rewrite He. reflexivity.
Qed.

Lemma round_trip_dash `{lib : CxxLib} : round_trip "a-b" = Ok "a b".
Proof. rewrite round_trip_two_symbols; [done|]. vm_compute. lia. Qed.

Lemma round_trip_aaaa `{lib : CxxLib} : round_trip "aaaa" = Ok "".
Proof. by destruct (round_trip_one_symbol "aaaa" "a" 4) as (_ & _ & _ & ?). Qed.

Example codes_aaaabbc :
  map_to_list (generateHuffmanCodes tree_aaaabbc "" ∅) =
  [("c"%char, "00"); ("a"%char, "1"); ("b"%char, "01")].
Proof. vm_compute. reflexivity. Qed.

(** ** With the reference library *)

(** An instance of [round_trip_exact]: the input "hello world". *)
Example round_trip_hello_world :
  round_trip (lib := ref_lib) "hello world" = Ok "hello world".
Proof. vm_compute. reflexivity. Qed.





(** Witness of [codes_prefix_free]: the codes of 'a' and 'b' in the tree
    of "aaaabbc". *)
Lemma codes_prefix_free_witness :
  "a"%char ≠ "b"%char ∧
  generateHuffmanCodes tree_aaaabbc "" ∅ !! "a"%char = Some "1" ∧
  generateHuffmanCodes tree_aaaabbc "" ∅ !! "b"%char = Some "01" ∧
  String.prefix "1" "01" = false ∧ String.prefix "01" "1" = false.
Proof.
  assert ("a"%char ≠ "b"%char) as H1 by discriminate.
  assert (generateHuffmanCodes tree_aaaabbc "" ∅ !! "a"%char = Some "1") as H2
    by (vm_compute; reflexivity).
  assert (generateHuffmanCodes tree_aaaabbc "" ∅ !! "b"%char = Some "01") as H3
    by (vm_compute; reflexivity).
  split_and!; [exact H1|exact H2|exact H3|..];
    apply (codes_prefix_free tree_aaaabbc "a" "b" "1" "01" H1 H2 H3).
Defined.



(** Witness of [size_report]: the run on "aaaa". *)
Lemma size_report_witness :
  run (lib := ref_lib) "aaaa" = Ok report_aaaa ∧
  string_size "aaaa" * 8 ≤ size_t_max ∧
  originalSize report_aaaa = string_size "aaaa" * 8 ∧
  compressedSize report_aaaa = string_size (encodedString report_aaaa) ∧
  compressionRatio report_aaaa =
    divide (originalSize report_aaaa) (compressedSize report_aaaa) ∧
  (compressedSize report_aaaa = 0 → compressionRatio report_aaaa = Infinity).
Proof.
  assert (run (lib := ref_lib) "aaaa" = Ok report_aaaa) as H1
    by (vm_compute; reflexivity).
  assert (string_size "aaaa" * 8 ≤ size_t_max) as H2 by (vm_compute; discriminate).
  split; [exact H1|]. split; [exact H2|].
  exact (size_report (lib := ref_lib) "aaaa" report_aaaa H1 H2).
Defined.

(** Counterexample to C10: on "aaaa" the compressed size is zero and the
    ratio is the result of the division by zero.  The same holds with
    any library ([run_aaaa]). *)
Lemma size_report_counterexample :
  run (lib := ref_lib) "aaaa" = Ok report_aaaa ∧
  compressedSize report_aaaa = 0 ∧
  compressionRatio report_aaaa = divide 32 0 ∧
  compressionRatio report_aaaa = Infinity.
Proof. split_and!; vm_compute; reflexivity. Qed.

(** ** Witnesses of the further properties *)

Example run_abb : run (lib := ref_lib) "abb" = Ok report_abb.
Proof. vm_compute. reflexivity. Qed.


(** Witness of [verified_iff]: the run on "abb". *)
Lemma verified_iff_witness :
  run (lib := ref_lib) "abb" = Ok report_abb ∧
  (verified report_abb = true ↔
   ("-"%char ∉ chars "abb") ∧ (2 ≤ size (frequency report_abb))%nat).
Proof.
  assert (run (lib := ref_lib) "abb" = Ok report_abb) as H1
    by (vm_compute; reflexivity).
  split; [exact H1|].
  exact (verified_iff (lib := ref_lib) "abb" report_abb H1).
Defined.

(** Witness of [one_symbol_report]: the run on "aaaa". *)
Lemma one_symbol_report_witness :
  run (lib := ref_lib) "aaaa" = Ok report_aaaa ∧
  size (frequency report_aaaa) = 1%nat ∧
  ∃ key count,
    frequency report_aaaa = {[key := count]} ∧
    (string_size "aaaa" ≤ INT_MAX → count = string_size "aaaa") ∧
    root report_aaaa = new_Node key count ∧
    huffmanCodes report_aaaa = {[key := ""]} ∧
    encodedString report_aaaa = "" ∧
    decodedString report_aaaa = "" ∧
    verified report_aaaa = false ∧
    compressedSize report_aaaa = 0 ∧
    ∀ n d, compressionRatio report_aaaa ≠ Quotient n d.
Proof.
  assert (run (lib := ref_lib) "aaaa" = Ok report_aaaa) as H1
    by (vm_compute; reflexivity).
  assert (size (frequency report_aaaa) = 1%nat) as H2
    by (vm_compute; reflexivity).
  split; [exact H1|]. split; [exact H2|].
  exact (one_symbol_report (lib := ref_lib) "aaaa" report_aaaa H1 H2).
Defined.

(** Witness of [encoded_bits]: the encoding of "aaaabbc". *)
Lemma encoded_bits_witness :
  encode "aaaabbc" (generateHuffmanCodes tree_aaaabbc "" ∅) = Ok "1111010100" ∧
  Forall (λ c, c = "0"%char ∨ c = "1"%char) (chars "1111010100").
Proof.
  assert (encode "aaaabbc" (generateHuffmanCodes tree_aaaabbc "" ∅) =
    Ok "1111010100") as H1 by (vm_compute; reflexivity).
  split; [exact H1|].
  exact (encoded_bits tree_aaaabbc "aaaabbc" "1111010100" H1).
Defined.

(** Witness of [codes_domain]: the tree of "aaaabbc". *)
Lemma codes_domain_witness :
  map_Forall (λ _ count, 0 < count) (buildFrequencyTable "aaaabbc") ∧
  buildHuffmanTree (lib := ref_lib) (buildFrequencyTable "aaaabbc") =
    Ok tree_aaaabbc ∧
  dom (generateHuffmanCodes tree_aaaabbc "" ∅) =
    dom (buildFrequencyTable "aaaabbc").
Proof.
  assert (map_Forall (λ _ count, 0 < count) (buildFrequencyTable "aaaabbc"))
    as H1 by (apply (bool_decide_unpack _); vm_compute; exact I).
  assert (buildHuffmanTree (lib := ref_lib) (buildFrequencyTable "aaaabbc") =
    Ok tree_aaaabbc) as H2 by (vm_compute; reflexivity).
  split; [exact H1|]. split; [exact H2|].
  exact (codes_domain (lib := ref_lib) _ tree_aaaabbc H1 H2).
Defined.

(** Witness of [code_length_bounds]: the code of 'c' in "aaaabbc". *)
Lemma code_length_bounds_witness :
  map_Forall (λ _ count, 0 < count) (buildFrequencyTable "aaaabbc") ∧
  buildHuffmanTree (lib := ref_lib) (buildFrequencyTable "aaaabbc") =
    Ok tree_aaaabbc ∧
  (2 ≤ size (buildFrequencyTable "aaaabbc"))%nat ∧
  generateHuffmanCodes tree_aaaabbc "" ∅ !! "c"%char = Some "00" ∧
  (1 ≤ String.length "00" ≤ size (buildFrequencyTable "aaaabbc") - 1)%nat.
Proof.
  assert (map_Forall (λ _ count, 0 < count) (buildFrequencyTable "aaaabbc"))
    as H1 by (apply (bool_decide_unpack _); vm_compute; exact I).
  assert (buildHuffmanTree (lib := ref_lib) (buildFrequencyTable "aaaabbc") =
    Ok tree_aaaabbc) as H2 by (vm_compute; reflexivity).
  assert (2 ≤ size (buildFrequencyTable "aaaabbc"))%nat as H3
    by (vm_compute; lia).
  assert (generateHuffmanCodes tree_aaaabbc "" ∅ !! "c"%char = Some "00") as H4
    by (vm_compute; reflexivity).
  split_and!; [exact H1|exact H2|exact H3|exact H4|..];
    apply (code_length_bounds (lib := ref_lib) _ tree_aaaabbc "c" "00"
             H1 H2 H3 H4).
Defined.

(** Witness of [tree_shape]: the tree of "aaaabbc". *)
Lemma tree_shape_witness :
  map_Forall (λ _ count, 0 < count) (buildFrequencyTable "aaaabbc") ∧
  total (buildFrequencyTable "aaaabbc") ≤ INT_MAX ∧
  buildHuffmanTree (lib := ref_lib) (buildFrequencyTable "aaaabbc") =
    Ok tree_aaaabbc ∧
  weighted tree_aaaabbc ∧ strict tree_aaaabbc ∧
  leaves tree_aaaabbc ≡ₚ map_to_list (buildFrequencyTable "aaaabbc") ∧
  freq_of tree_aaaabbc = total (buildFrequencyTable "aaaabbc").
Proof.
  assert (map_Forall (λ _ count, 0 < count) (buildFrequencyTable "aaaabbc"))
    as H1 by (apply (bool_decide_unpack _); vm_compute; exact I).
  assert (total (buildFrequencyTable "aaaabbc") ≤ INT_MAX) as H0
    by (vm_compute; discriminate).
  assert (buildHuffmanTree (lib := ref_lib) (buildFrequencyTable "aaaabbc") =
    Ok tree_aaaabbc) as H2 by (vm_compute; reflexivity).
  split; [exact H1|]. split; [exact H0|]. split; [exact H2|].
  exact (tree_shape (lib := ref_lib) _ tree_aaaabbc H1 H0 H2).
Defined.

(** Witness of [huffman_greedy]: the tree of [heavy_map], in which the
    merge of 'A' and 'B' holds the [int] sum of 2^30 and 2^30 + 1. *)
Lemma huffman_greedy_witness :
  buildHuffmanTree (lib := ref_lib) heavy_map = Ok heavy_tree ∧
  builds (initial_forest heavy_map) heavy_tree.
Proof.
  assert (buildHuffmanTree (lib := ref_lib) heavy_map = Ok heavy_tree) as H1
    by (vm_compute; reflexivity).
  split; [exact H1|].
  exact (huffman_greedy (lib := ref_lib) _ heavy_tree H1).
Defined.



(** Witness of [decode_output]: the bit string of "aaaabbc". *)
Lemma decode_output_witness :
  decode "1111010100" tree_aaaabbc = Ok "aaaabbc" ∧
  ("-"%char ∉ chars "aaaabbc") ∧
  (String.length "aaaabbc" ≤ String.length "1111010100")%nat.
Proof.
  assert (decode "1111010100" tree_aaaabbc = Ok "aaaabbc") as H1
    by (vm_compute; reflexivity).
  split; [exact H1|].
  exact (decode_output "1111010100" tree_aaaabbc "aaaabbc" H1).
Defined.

(** Witness of [any_tree_round_trip]: a tree that no frequency table
    gives, since the heavier leaf is the deeper one. *)
Lemma any_tree_round_trip_witness :
  strict (node Ascii.zero 0 (new_Node "x" 1)
            (node Ascii.zero 0 (new_Node "-" 9) (new_Node "y" 1))) ∧
  is_leaf (node Ascii.zero 0 (new_Node "x" 1)
            (node Ascii.zero 0 (new_Node "-" 9) (new_Node "y" 1))) = false ∧
  encode "x -y"
    (generateHuffmanCodes
       (node Ascii.zero 0 (new_Node "x" 1)
          (node Ascii.zero 0 (new_Node "-" 9) (new_Node "y" 1))) "" ∅) =
    Ok "0101011" ∧
  decode "0101011"
    (node Ascii.zero 0 (new_Node "x" 1)
       (node Ascii.zero 0 (new_Node "-" 9) (new_Node "y" 1))) =
    Ok (string_map (λ ch, if Ascii.eqb ch "-" then " "%char else ch) "x -y").
Proof.
  set (t := node Ascii.zero 0 (new_Node "x" 1)
              (node Ascii.zero 0 (new_Node "-" 9) (new_Node "y" 1))).
  assert (strict t) as H1 by (repeat constructor).
  assert (is_leaf t = false) as H2 by reflexivity.
  assert (encode "x -y" (generateHuffmanCodes t "" ∅) = Ok "0101011") as H3
    by (vm_compute; reflexivity).
  split_and!; [exact H1|exact H2|exact H3|].
  exact (any_tree_round_trip t "x -y" "0101011" H1 H2 H3).
Defined.

(** Witness of [frequency_table_order]: "abb" and "bab". *)
Lemma frequency_table_order_witness :
  chars "abb" ≡ₚ chars "bab" ∧
  buildFrequencyTable "abb" = buildFrequencyTable "bab".
Proof.
  assert (chars "abb" ≡ₚ chars "bab") as H1 by apply perm_swap.
  split; [exact H1|].
  exact (frequency_table_order "abb" "bab" H1).
Defined.

(** Witness of [frequency_table_app]: the count of 'b' in "ab" and
    "bb", 1 + 2. *)
Lemma frequency_table_app_witness :
  occurrences "b" ("ab" +:+ "bb") ≤ INT_MAX ∧
  default 0 (buildFrequencyTable ("ab" +:+ "bb") !! "b"%char) =
  default 0 (buildFrequencyTable "ab" !! "b"%char) +
  default 0 (buildFrequencyTable "bb" !! "b"%char).
Proof.
  assert (occurrences "b" ("ab" +:+ "bb") ≤ INT_MAX) as H1
    by (vm_compute; discriminate).
  split; [exact H1|].
  exact (frequency_table_app "ab" "bb" "b" H1).
Defined.

(** Witness of [lightest_siblings]: 'c' (once) and 'b' (twice) in
    "aaaabbc". *)
Lemma lightest_siblings_witness :
  map_Forall (λ _ count, 0 < count) (buildFrequencyTable "aaaabbc") ∧
  buildHuffmanTree (lib := ref_lib) (buildFrequencyTable "aaaabbc") =
    Ok tree_aaaabbc ∧
  buildFrequencyTable "aaaabbc" !! "c"%char = Some 1 ∧
  buildFrequencyTable "aaaabbc" !! "b"%char = Some 2 ∧
  1 < 2 ∧
  map_Forall (λ key count, key = "c"%char ∨ key = "b"%char ∨ 2 < count)
    (buildFrequencyTable "aaaabbc") ∧
  ∃ prefix,
    generateHuffmanCodes tree_aaaabbc "" ∅ !! "c"%char = Some (prefix +:+ "0") ∧
    generateHuffmanCodes tree_aaaabbc "" ∅ !! "b"%char = Some (prefix +:+ "1").
Proof.
  assert (map_Forall (λ _ count, 0 < count) (buildFrequencyTable "aaaabbc"))
    as H1 by (apply (bool_decide_unpack _); vm_compute; exact I).
  assert (buildHuffmanTree (lib := ref_lib) (buildFrequencyTable "aaaabbc") =
    Ok tree_aaaabbc) as H2 by (vm_compute; reflexivity).
  assert (buildFrequencyTable "aaaabbc" !! "c"%char = Some 1) as H3
    by (vm_compute; reflexivity).
  assert (buildFrequencyTable "aaaabbc" !! "b"%char = Some 2) as H4
    by (vm_compute; reflexivity).
  assert (1 < 2) as H5 by lia.
  assert (map_Forall (λ key count, key = "c"%char ∨ key = "b"%char ∨ 2 < count)
    (buildFrequencyTable "aaaabbc")) as H6
    by (apply (bool_decide_unpack _); vm_compute; exact I).
  split_and!; [exact H1|exact H2|exact H3|exact H4|exact H5|exact H6|].
  exact (lightest_siblings (lib := ref_lib) _ tree_aaaabbc "c" "b" 1 2
           H1 H2 H3 H4 H5 H6).
Defined.

(** Witness of [session_rounds]: the user types "ab", "y", "xcd", "n". *)
Lemma session_rounds_witness :
  well_typed "ab" "y" [("x"%char, "cd", "n")] ∧
  ends_with_no "y" [("x"%char, "cd", "n")] ∧
  (length [("x"%char, "cd", "n")] < 2)%nat ∧
  main (lib := ref_lib) 2 (session_text "ab" "y" [("x"%char, "cd", "n")] "") =
  run_all (session_lines "ab" [("x"%char, "cd", "n")]).
Proof.
  assert (well_typed "ab" "y" [("x"%char, "cd", "n")]) as H1.
  { unfold well_typed, one_line. split_and!;
      [| |repeat constructor; simpl]; apply (bool_decide_unpack _); vm_compute; exact I. }
  assert (ends_with_no "y" [("x"%char, "cd", "n")]) as H2.
  { simpl. unfold yes. split; [by left|]. intros [?|?]; discriminate. }
  assert (length [("x"%char, "cd", "n")] < 2)%nat as H3 by (simpl; lia).
  split_and!; [exact H1|exact H2|exact H3|].
  exact (session_rounds (lib := ref_lib) 2 "ab" "y" [("x"%char, "cd", "n")] ""
           H1 H2 H3).
Defined.

